(** * zerofs-cli: the multipart uploader of [zerofs.py]

    A shallow embedding of [Uploader._upload_part] and
    [Uploader._multipart_upload] together with the two collaborators of
    [APIClient] they call, and the properties of the upload engine that
    follow from the code.

    Conventions of the embedding.
    - Python integers are [Z]; strings are [string].
    - Everything the code does to the outside world is recorded as an
      [event]: reading the file, the HTTP requests, [time.sleep], the calls
      on the progress bar and the console output.
    - What the outside world answers is an input of the model: for every
      attempt of every part an [attempt_outcome], for the two API calls a
      [post_outcome].  [requests] raises [requests.RequestException] (or a
      subclass) from [Session.put] and [Session.post]; reading the local file
      raises [OSError].  Asynchronous interrupts are outside the model.
    - The worker pool is a transition system: a schedule decides when each
      submitted task runs and which finished future [as_completed] yields
      next. *)

From Stdlib Require Import ZArith String Ascii Bool Lia Permutation Sorted List.
Import ListNotations.
Open Scope Z_scope.

(** ** Constants *)

Definition MAX_RETRIES : Z := 5.
Definition RETRY_BACKOFF_BASE : Z := 2.

(** [range(n)] *)
Definition range (n : Z) : list Z := map Z.of_nat (seq 0 (Z.to_nat n)).

(** ** Exceptions, responses, console messages, events *)

Inductive exn : Type :=
| OSError (msg : string)            (* open / seek / read of the local file *)
| ConnectionError (msg : string)    (* a requests.RequestException of the transport *)
| HTTPError (status : Z)            (* requests.HTTPError, from raise_for_status *)
| RuntimeError (msg : string) (cause : exn).

(** [isinstance(e, requests.RequestException)] *)
Definition is_RequestException (e : exn) : bool :=
  match e with
  | ConnectionError _ | HTTPError _ => true
  | OSError _ | RuntimeError _ _ => false
  end.

Inductive result (A : Type) : Type :=
| Return (a : A)
| Raise (e : exn).
Arguments Return {A} a.
Arguments Raise {A} e.

Record Response : Type := mkResponse {
  status_code : Z;
  ETag : option string          (* response.headers.get('ETag') *)
}.

(** [Response.raise_for_status], by status code: an [HTTPError] for the 4xx
    and 5xx codes. *)
Definition raise_for_status (status : Z) : option exn :=
  if (400 <=? status) && (status <? 600)
  then Some (HTTPError status)
  else None.

(** [headers.get(key, default)] on the one header the code reads. *)
Definition headers_get_ETag (r : Response) (default : string) : string :=
  match ETag r with
  | Some v => v
  | None => default
  end.

Definition dquote : ascii := Eval cbv in ascii_of_nat 34.

(** [str.strip(c)] for a one-character set: drop every leading and every
    trailing [c]. *)
Fixpoint lstrip (c : ascii) (s : string) : string :=
  match s with
  | EmptyString => EmptyString
  | String a s' => if Ascii.eqb a c then lstrip c s' else s
  end.

Fixpoint rstrip (c : ascii) (s : string) : string :=
  match s with
  | EmptyString => EmptyString
  | String a s' =>
      match rstrip c s' with
      | EmptyString => if Ascii.eqb a c then EmptyString else String a EmptyString
      | r => String a r
      end
  end.

Definition strip (c : ascii) (s : string) : string := rstrip c (lstrip c s).

(** The dictionary [{'part_number': ..., 'etag': ...}] returned by
    [_upload_part]. *)
Record PartResult : Type := mkPartResult {
  part_number : Z;
  etag : string
}.

Inductive message : Type :=
| MsgStarting (file_size chunk_size : Z) (nparts : nat)
| MsgPartFailedAfter (part : Z) (attempts : Z) (e : exn)
| MsgResponse (status : Z)
| MsgPartFailed (part : Z) (e : exn)
| MsgAllPartsUploaded
| MsgFinalizing
| MsgCompleted
| MsgUploadFailed (e : exn)
| MsgAbortWarning (e : exn).

Inductive event : Type :=
| EvRead (start size : Z)                    (* open, f.seek(start), f.read(size) *)
| EvPut (url : string) (content_length : Z)  (* session.put(part_url, ...) *)
| EvSleep (secs : Z)                         (* time.sleep *)
| EvUpdate (n : Z)                           (* progress.update(n) *)
| EvClose                                    (* progress.complete() *)
| EvPrint (m : message)
| EvAbort (completion_token : string)        (* POST abort-multipart-upload *)
| EvComplete (completion_token : string) (parts : list PartResult)
             (token : option string).        (* POST complete-multipart-upload *)

(** ** [Uploader._upload_part] *)

(** What the outside world does to one attempt of a part. *)
Inductive attempt_outcome : Type :=
| ReadRaises (msg : string)      (* the file cannot be opened or read *)
| PutRaises (msg : string)       (* session.put raises *)
| PutReturns (r : Response).

Section UploadPart.

Variables (part_url : string) (part_no start end_ : Z).
Variable storage : Z -> attempt_outcome.   (* by attempt index *)

Definition part_size : Z := end_ - start.

(** The body of the [try] of one loop iteration. *)
Definition attempt_body (o : attempt_outcome) : list event * result PartResult :=
  match o with
  | ReadRaises m => ([EvRead start part_size], Raise (OSError m))
  | PutRaises m =>
      ([EvRead start part_size; EvPut part_url part_size], Raise (ConnectionError m))
  | PutReturns r =>
      match raise_for_status (status_code r) with
      | Some e => ([EvRead start part_size; EvPut part_url part_size], Raise e)
      | None =>
          let etag := strip dquote (headers_get_ETag r EmptyString) in
          ([EvRead start part_size; EvPut part_url part_size; EvUpdate part_size],
           Return (mkPartResult part_no etag))
      end
  end.

(** [if hasattr(e, 'response') and e.response is not None: print(...)] *)
Definition print_response (e : exn) : list event :=
  match e with
  | HTTPError st => [EvPrint (MsgResponse st)]
  | _ => []
  end.

(** [for attempt in attempts: try ... except requests.RequestException ...].
    [None] is the loop running out without [return] or [raise]. *)
Fixpoint retry_loop (attempts : list Z) : list event * option (result PartResult) :=
  match attempts with
  | [] => ([], None)
  | attempt :: rest =>
      let (evs, r) := attempt_body (storage attempt) in
      match r with
      | Return pr => (evs, Some (Return pr))
      | Raise e =>
          if is_RequestException e then
            if attempt <? MAX_RETRIES - 1 then
              let wait_time := RETRY_BACKOFF_BASE ^ attempt in
              let (evs', r') := retry_loop rest in
              (evs ++ EvSleep wait_time :: evs', r')
            else
              (evs ++ EvPrint (MsgPartFailedAfter part_no MAX_RETRIES e)
                   :: print_response e,
               Some (Raise e))
          else (evs, Some (Raise e))
      end
  end.

Definition _upload_part : list event * option (result PartResult) :=
  retry_loop (range MAX_RETRIES).

End UploadPart.

(** Observations on a trace. *)
Definition is_read (e : event) : bool :=
  match e with EvRead _ _ => true | _ => false end.
Definition is_put (e : event) : bool :=
  match e with EvPut _ _ => true | _ => false end.

Fixpoint sleeps (tr : list event) : list Z :=
  match tr with
  | [] => []
  | EvSleep s :: tr' => s :: sleeps tr'
  | _ :: tr' => sleeps tr'
  end.

Fixpoint updates (tr : list event) : list Z :=
  match tr with
  | [] => []
  | EvUpdate n :: tr' => n :: updates tr'
  | _ :: tr' => updates tr'
  end.

Definition attempts_made (tr : list event) : nat := length (filter is_read tr).
Definition puts_issued (tr : list event) : nat := length (filter is_put tr).

(** An attempt that ends in a [requests.RequestException]. *)
Definition transient (o : attempt_outcome) : bool :=
  match o with
  | ReadRaises _ => false
  | PutRaises _ => true
  | PutReturns r =>
      match raise_for_status (status_code r) with Some _ => true | None => false end
  end.

(** An attempt that ends in [return]. *)
Definition succeeds (o : attempt_outcome) : bool :=
  match o with
  | PutReturns r =>
      match raise_for_status (status_code r) with Some _ => false | None => true end
  | _ => false
  end.

(** ** Specification vocabulary for one part *)

Section UploadPartSpec.

Variables (part_url : string) (part_no start end_ : Z).
Variable storage : Z -> attempt_outcome.

(** The three ways an attempt can end. *)
Inductive attempt_spec (o : attempt_outcome) : Prop :=
| attempt_transient (e : exn) :
    transient o = true -> succeeds o = false -> is_RequestException e = true ->
    attempt_body part_url part_no start end_ o
    = ([EvRead start (part_size start end_); EvPut part_url (part_size start end_)],
       Raise e) ->
    attempt_spec o
| attempt_ok (r : Response) :
    transient o = false -> succeeds o = true -> o = PutReturns r ->
    attempt_body part_url part_no start end_ o
    = ([EvRead start (part_size start end_); EvPut part_url (part_size start end_);
        EvUpdate (part_size start end_)],
       Return (mkPartResult part_no (strip dquote (headers_get_ETag r EmptyString)))) ->
    attempt_spec o
| attempt_fatal (m : string) :
    transient o = false -> succeeds o = false -> o = ReadRaises m ->
    attempt_body part_url part_no start end_ o
    = ([EvRead start (part_size start end_)], Raise (OSError m)) ->
    attempt_spec o.

(** The shape of a call of [_upload_part]: [k] transient failures, each
    followed by a sleep of [BASE ^ j] seconds, then one last attempt that
    decides.  A transient failure is last only at attempt [MAX_RETRIES - 1]. *)
Definition call_shape (k : nat) : Prop :=
  Z.of_nat k < MAX_RETRIES /\
  attempts_made (fst (_upload_part part_url part_no start end_ storage)) = S k /\
  sleeps (fst (_upload_part part_url part_no start end_ storage))
    = map (fun j => RETRY_BACKOFF_BASE ^ j) (range (Z.of_nat k)) /\
  (forall j, 0 <= j < Z.of_nat k -> transient (storage j) = true) /\
  snd (_upload_part part_url part_no start end_ storage)
    = Some (snd (attempt_body part_url part_no start end_ (storage (Z.of_nat k)))) /\
  (transient (storage (Z.of_nat k)) = true -> Z.of_nat k = MAX_RETRIES - 1).

End UploadPartSpec.

(** ** The part plan of the dispatch loop *)

(** One entry of [metadata['part_urls']]. *)
Record PartInfo : Type := mkPartInfo {
  info_part_number : Z;
  info_url : string
}.

Record Metadata : Type := mkMetadata {
  chunk_size : Z;
  part_urls : list PartInfo;
  completion_token : string
}.

(** The arguments of one [executor.submit(self._upload_part, ...)]. *)
Record Task : Type := mkTask {
  task_url : string;
  task_part_number : Z;
  task_start : Z;
  task_end : Z
}.

(** The body of [for part_info in part_urls]. *)
Definition submit (chunk_size file_size : Z) (part_info : PartInfo) : Task :=
  let part_number := info_part_number part_info in
  let part_url := info_url part_info in
  let start := (part_number - 1) * chunk_size in
  let end_ := Z.min (start + chunk_size) file_size in
  mkTask part_url part_number start end_.

Definition submitted (md : Metadata) (file_size : Z) : list Task :=
  map (submit (chunk_size md) file_size) (part_urls md).

(** [ceil(a / b)] for [b > 0]. *)
Definition ceil_div (a b : Z) : Z := (a + b - 1) / b.

(** The descriptor invariant of the data model: the part numbers are
    [1 .. ceil(file_size / chunk_size)], in this order. *)
Definition well_formed (md : Metadata) (file_size : Z) : Prop :=
  0 <= file_size /\ 0 < chunk_size md /\
  map info_part_number (part_urls md)
  = map (fun k => Z.of_nat k) (seq 1 (Z.to_nat (ceil_div file_size (chunk_size md)))).

(** ** [parts.sort(key=lambda x: x['part_number'])]: a stable ascending sort *)

Fixpoint insert_part (x : PartResult) (l : list PartResult) : list PartResult :=
  match l with
  | [] => [x]
  | y :: l' =>
      if part_number x <=? part_number y then x :: l else y :: insert_part x l'
  end.

Definition sort_parts (l : list PartResult) : list PartResult :=
  fold_right insert_part [] l.

(** ** The collaborators of [APIClient] *)

(** What [session.post] does: it raises a [requests.RequestException], or
    returns a response with a status code and a JSON body, of which the code
    reads the key ['file_id']. *)
Inductive post_outcome : Type :=
| PostRaises (msg : string)
| PostReturns (status : Z) (json_file_id : option string).

(** [try: response = post(...); response.raise_for_status()] *)
Definition post (o : post_outcome) : result (option string) :=
  match o with
  | PostRaises m => Raise (ConnectionError m)
  | PostReturns st body =>
      match raise_for_status st with
      | Some e => Raise e
      | None => Return body
      end
  end.

(** [APIClient.complete_multipart_upload]: a request exception is re-raised
    as [RuntimeError]. *)
Definition complete_multipart_upload (o : post_outcome) (completion_token : string)
    (parts : list PartResult) (token : option string)
  : list event * result (option string) :=
  ([EvComplete completion_token parts token],
   match post o with
   | Return body => Return body
   | Raise e => Raise (RuntimeError "Failed to complete multipart upload" e)
   end).

(** [APIClient.abort_multipart_upload]: a request exception is printed as a
    warning; the function returns [None] either way.  The [token] argument is
    not used by the body. *)
Definition abort_multipart_upload (o : post_outcome) (completion_token : string)
    (token : option string) : list event :=
  EvAbort completion_token ::
  match post o with
  | Return _ => []
  | Raise e => [EvPrint (MsgAbortWarning e)]
  end.

(** ** The progress bar

    [tqdm]: [update] adds to the counter unless the bar is closed (disabled),
    [close] disables it. *)
Module ProgressTracker.

Record t : Type := mk {
  n : Z;             (* pbar.n *)
  closed : bool      (* pbar.disable *)
}.

Definition update (self : t) (bytes_uploaded : Z) : t :=
  if closed self then self else mk (n self + bytes_uploaded) false.

Definition complete (self : t) : t := mk (n self) true.

End ProgressTracker.

(** ** [Uploader._multipart_upload] over the worker pool *)

Inductive thread : Type :=
| Main
| Worker (i : nat).     (* the task of the [i]-th submitted future *)

(** The answers of the outside world during one upload. *)
Record World : Type := mkWorld {
  file_size : Z;                            (* os.path.getsize(file_path) *)
  storage : nat -> Z -> attempt_outcome;    (* by future, by attempt *)
  complete_post : post_outcome;
  abort_post : post_outcome
}.

(** Where the main thread is: in the [as_completed] loop; past the
    [return False] of the loop but still inside the [with] block, which waits
    for the pool; returned. *)
Inductive phase : Type :=
| Collecting
| Draining
| Done (ret : bool).

Record state : Type := mkState {
  finished : list nat;          (* futures that are done, oldest first *)
  yielded : list nat;           (* futures [as_completed] has yielded *)
  parts : list PartResult;
  log : list (thread * event);  (* everything that happened, oldest first *)
  st_phase : phase;
  file_id : option string       (* metadata['file_id'] *)
}.

Definition tagged (t : thread) (evs : list event) : list (thread * event) :=
  map (pair t) evs.

(** The state of the progress bar after a log. *)
Definition sink_step (p : ProgressTracker.t) (te : thread * event) : ProgressTracker.t :=
  match snd te with
  | EvUpdate n => ProgressTracker.update p n
  | EvClose => ProgressTracker.complete p
  | _ => p
  end.

Definition sink (l : list (thread * event)) : ProgressTracker.t :=
  fold_left sink_step l (ProgressTracker.mk 0 false).

Inductive label : Type :=
| Work (i : nat)       (* a pool thread runs the task of future [i] *)
| Yield (i : nat)      (* [as_completed] yields future [i] to the loop body *)
| Exit.                (* the main thread leaves the [with] block and goes on *)

Definition mem (i : nat) (l : list nat) : bool := existsb (Nat.eqb i) l.

Section MultipartUpload.

Variables (md : Metadata) (token : option string) (w : World).

Definition tasks : list Task := submitted md (file_size w).

(** The call [_upload_part(...)] of future [i]: its trace and what
    [future.result()] gives.  [_upload_part] always returns or raises
    (lemma [upload_part_total]); the last branch is never taken. *)
Definition run_task (i : nat) (t : Task) : list event * result PartResult :=
  let (tr, r) := _upload_part (task_url t) (task_part_number t)
                              (task_start t) (task_end t) (storage w i) in
  (tr, match r with
       | Some r => r
       | None => Raise (RuntimeError "no result" (OSError EmptyString))
       end).

Definition init : state :=
  mkState [] [] []
    [(Main, EvPrint (MsgStarting (file_size w) (chunk_size md)
                                 (List.length (part_urls md))))]
    Collecting None.

(** The [except Exception] branch of the loop body, up to [return False]. *)
Definition on_part_failure (part_number : Z) (e : exn) : list event :=
  EvPrint (MsgPartFailed part_number e) :: EvClose ::
  abort_multipart_upload (abort_post w) (completion_token md) token.

(** The outer [except (Exception, KeyboardInterrupt)] branch. *)
Definition on_upload_failure (e : exn) : list event :=
  EvClose :: EvPrint (MsgUploadFailed e) ::
  abort_multipart_upload (abort_post w) (completion_token md) None.

(** The code after the [with] block. *)
Definition finalize (s : state) : state :=
  let sorted := sort_parts (parts s) in
  let (evs, r) := complete_multipart_upload (complete_post w)
                    (completion_token md) sorted token in
  let before := EvClose :: EvPrint MsgAllPartsUploaded :: EvPrint MsgFinalizing :: evs in
  match r with
  | Return fid =>
      mkState (finished s) (yielded s) sorted
              (log s ++ tagged Main (before ++ [EvPrint MsgCompleted]))
              (Done true) fid
  | Raise e =>
      mkState (finished s) (yielded s) sorted
              (log s ++ tagged Main (before ++ on_upload_failure e))
              (Done false) (file_id s)
  end.

Definition all_finished (s : state) : bool :=
  forallb (fun i => mem i (finished s)) (seq 0 (List.length tasks)).

(** One step of the pool; [None] when the label is not enabled. *)
Definition step (l : label) (s : state) : option state :=
  match l with
  | Work i =>
      match nth_error tasks i with
      | Some t =>
          if mem i (finished s) then None
          else
            Some (mkState (finished s ++ [i]) (yielded s) (parts s)
                          (log s ++ tagged (Worker i) (fst (run_task i t)))
                          (st_phase s) (file_id s))
      | None => None
      end
  | Yield i =>
      match st_phase s, nth_error tasks i with
      | Collecting, Some t =>
          if mem i (finished s) && negb (mem i (yielded s)) then
            match snd (run_task i t) with
            | Return part_info =>
                Some (mkState (finished s) (yielded s ++ [i])
                              (parts s ++ [part_info]) (log s)
                              Collecting (file_id s))
            | Raise e =>
                Some (mkState (finished s) (yielded s ++ [i]) (parts s)
                              (log s ++ tagged Main (on_part_failure (task_part_number t) e))
                              Draining (file_id s))
            end
          else None
      | _, _ => None
      end
  | Exit =>
      match st_phase s with
      | Collecting =>
          if (List.length (yielded s) =? List.length tasks)%nat
          then Some (finalize s) else None
      | Draining =>
          if all_finished s
          then Some (mkState (finished s) (yielded s) (parts s) (log s)
                             (Done false) (file_id s))
          else None
      | Done _ => None
      end
  end.

(** A schedule; a label that is not enabled is skipped. *)
Fixpoint run (sched : list label) (s : state) : state :=
  match sched with
  | [] => s
  | l :: sched' =>
      match step l s with
      | Some s' => run sched' s'
      | None => run sched' s
      end
  end.

Definition _multipart_upload (sched : list label) : state := run sched init.

(** Every task runs, every future is yielded in submission order, the
    [with] block is left. *)
Definition in_order : list label :=
  map Work (seq 0 (List.length tasks)) ++ map Yield (seq 0 (List.length tasks)) ++ [Exit].

End MultipartUpload.

(** Observations on a log. *)
Definition is_main (te : thread * event) : bool :=
  match fst te with Main => true | Worker _ => false end.

Definition main_log (l : list (thread * event)) : list event :=
  map snd (filter is_main l).

Definition is_worker (i : nat) (te : thread * event) : bool :=
  match fst te with Main => false | Worker j => Nat.eqb i j end.

Definition worker_log (i : nat) (l : list (thread * event)) : list event :=
  map snd (filter (is_worker i) l).

Definition is_abort (e : event) : bool :=
  match e with EvAbort _ => true | _ => false end.
Definition is_complete (e : event) : bool :=
  match e with EvComplete _ _ _ => true | _ => false end.
Definition is_close (e : event) : bool :=
  match e with EvClose => true | _ => false end.

(** The completion tokens of the abort calls, the part lists of the
    completion calls, in the order of the calls. *)
Definition abort_of (e : event) : list string :=
  match e with EvAbort ct => [ct] | _ => [] end.
Definition complete_of (e : event) : list (list PartResult) :=
  match e with EvComplete _ ps _ => [ps] | _ => [] end.

Definition abort_calls (l : list (thread * event)) : list string :=
  flat_map abort_of (map snd l).
Definition complete_calls (l : list (thread * event)) : list (list PartResult) :=
  flat_map complete_of (map snd l).
Definition put_requests (l : list (thread * event)) : nat :=
  puts_issued (map snd l).

(** ** Specification vocabulary for an upload *)

Definition sum_Z (l : list Z) : Z := fold_right Z.add 0 l.

(** Ascending by part number. *)
Definition part_le (a b : PartResult) : Prop := part_number a <= part_number b.
Definition ascending (l : list PartResult) : Prop := StronglySorted part_le l.

Section UploadSpec.

Variables (md : Metadata) (token : option string) (w : World).

Definition starting : event :=
  EvPrint (MsgStarting (file_size w) (chunk_size md) (List.length (part_urls md))).

(** Future [i] returns [pr]. *)
Definition succeeded (i : nat) (pr : PartResult) : Prop :=
  exists t, nth_error (tasks md w) i = Some t /\ snd (run_task w i t) = Return pr.

(** Future [i], the upload of part [pn], raises [e]. *)
Definition failed (i : nat) (pn : Z) (e : exn) : Prop :=
  exists t, nth_error (tasks md w) i = Some t /\ task_part_number t = pn /\
            snd (run_task w i t) = Raise e.

Definition all_parts_succeed : Prop :=
  forall i, (i < List.length (tasks md w))%nat -> exists pr, succeeded i pr.

(** What the task of future [i] does. *)
Definition task_trace (i : nat) : list event :=
  match nth_error (tasks md w) i with
  | Some t => fst (run_task w i t)
  | None => []
  end.

Definition bytes_reported (i : nat) : Z := sum_Z (updates (task_trace i)).

Definition total_reported (l : list nat) : Z := sum_Z (map bytes_reported l).

(** The loop has yielded a failed future: all futures yielded before it had
    succeeded, and the main thread has printed the failure of that part,
    closed the progress bar and called the abort collaborator. *)
Definition decided (s : state) : Prop :=
  exists ys i pn e,
    yielded s = ys ++ [i] /\
    Forall (fun j => exists pr, succeeded j pr) ys /\
    failed i pn e /\
    main_log (log s) = starting :: on_part_failure md token w pn e.

(** What the main thread does after the [with] block; [ps] are the collected
    results in the order in which the futures were yielded. *)
Definition after_collecting (ps : list PartResult) : list event :=
  EvClose :: EvPrint MsgAllPartsUploaded :: EvPrint MsgFinalizing ::
  EvComplete (completion_token md) (sort_parts ps) token ::
  match post (complete_post w) with
  | Return _ => [EvPrint MsgCompleted]
  | Raise e => on_upload_failure md w (RuntimeError "Failed to complete multipart upload" e)
  end.

(** Every future was yielded and had succeeded; the main thread went on to
    the completion collaborator. *)
Definition finalized (s : state) (ret : bool) : Prop :=
  exists ps,
    Permutation (yielded s) (seq 0 (List.length (tasks md w))) /\
    Forall2 succeeded (yielded s) ps /\
    parts s = sort_parts ps /\
    main_log (log s) = starting :: after_collecting ps /\
    ProgressTracker.n (sink (log s)) = total_reported (seq 0 (List.length (tasks md w))) /\
    match post (complete_post w) with
    | Return fid => ret = true /\ file_id s = fid
    | Raise _ => ret = false
    end.

(** The invariant of the transition system. *)
Definition Inv (s : state) : Prop :=
  NoDup (finished s) /\
  (forall i, In i (finished s) -> (i < List.length (tasks md w))%nat) /\
  NoDup (yielded s) /\
  incl (yielded s) (finished s) /\
  (forall i, worker_log i (log s) = if mem i (finished s) then task_trace i else []) /\
  match st_phase s with
  | Collecting =>
      Forall2 succeeded (yielded s) (parts s) /\
      main_log (log s) = [starting] /\
      sink (log s) = ProgressTracker.mk (total_reported (finished s)) false
  | Draining => decided s
  | Done ret =>
      (forall i, (i < List.length (tasks md w))%nat -> In i (finished s)) /\
      ((ret = false /\ decided s) \/ finalized s ret)
  end.

End UploadSpec.

(** The log without the warnings of the abort collaborator. *)
Definition is_abort_warning (te : thread * event) : bool :=
  match snd te with EvPrint (MsgAbortWarning _) => true | _ => false end.

Definition without_warnings (l : list (thread * event)) : list (thread * event) :=
  filter (fun te => negb (is_abort_warning te)) l.

(** The same world, but with another answer to the abort call. *)
Definition with_abort (w : World) (o : post_outcome) : World :=
  mkWorld (file_size w) (storage w) (complete_post w) o.

(** The run in [w] and the run in the world where the abort call succeeds, in
    lockstep: the same state, the log without the warnings. *)
Definition same_but_warnings (s s' : state) : Prop :=
  finished s' = finished s /\ yielded s' = yielded s /\ parts s' = parts s /\
  st_phase s' = st_phase s /\ file_id s' = file_id s /\
  log s' = without_warnings (log s).

(** No [update] on the progress bar comes after its [close]. *)
Definition no_update_after_close (l : list (thread * event)) : Prop :=
  forall l1 l2 t n, l = l1 ++ l2 -> In (Main, EvClose) l1 -> ~ In (t, EvUpdate n) l2.

(** ** Example inputs *)

(** Four connection resets, then a 200 with an entity tag. *)
Definition flaky_storage (attempt : Z) : attempt_outcome :=
  if attempt <? 4 then PutRaises "connection reset"
  else PutReturns (mkResponse 200 (Some "abc"%string)).

(** One transient failure, then a 204 without an entity tag. *)
Definition tagless_storage (attempt : Z) : attempt_outcome :=
  if attempt <? 1 then PutRaises "timeout"
  else PutReturns (mkResponse 204 None).

(** A file of 25 bytes in three parts of at most 10 bytes. *)
Definition md3 : Metadata :=
  mkMetadata 10 [mkPartInfo 1 "url1"; mkPartInfo 2 "url2"; mkPartInfo 3 "url3"] "ctok".

Definition ok_with_tag (tag : string) : attempt_outcome :=
  PutReturns (mkResponse 200 (Some (String dquote (tag ++ String dquote EmptyString)))).

(** Every attempt of the second part is answered with a 403; the abort call
    fails as well. *)
Definition w_part2_fails : World :=
  mkWorld 25
    (fun i _ => match i with
                | 1%nat => PutReturns (mkResponse 403 None)
                | _ => ok_with_tag "a"
                end)
    (PostReturns 200 (Some "file-1"%string))
    (PostRaises "unreachable").

(** The failed part is yielded first; the other two finish afterwards. *)
Definition sched_fail_first : list label :=
  [Work 1; Yield 1; Work 0; Work 2; Exit].

(** Every part is stored at the first attempt; the completion call succeeds. *)
Definition w_all_ok : World :=
  mkWorld 25
    (fun i _ => match i with
                | 0%nat => ok_with_tag "a"
                | 1%nat => ok_with_tag "b"
                | _ => ok_with_tag "c"
                end)
    (PostReturns 200 (Some "file-1"%string))
    (PostReturns 200 None).

(** The parts finish and are yielded in reverse order. *)
Definition sched_reverse : list label :=
  [Work 2; Work 1; Yield 2; Work 0; Yield 1; Yield 0; Exit].

(** Every part is stored, but the completion call is answered with a 500. *)
Definition w_complete_fails : World :=
  mkWorld 25 (storage w_all_ok) (PostReturns 500 None) (PostReturns 200 None).

(** A descriptor with two part URLs for a file that needs three parts, and
    one with a chunk size of zero. *)
Definition md_short : Metadata :=
  mkMetadata 10 [mkPartInfo 1 "url1"; mkPartInfo 2 "url2"] "ctok".

Definition md_zero : Metadata :=
  mkMetadata 0 [mkPartInfo 1 "url1"] "ctok".

(** * The rest of the uploader *)

(** ** More vocabulary for one part *)

(** An event of a part transfer that touches the file, the storage or the
    progress bar does so with the byte range and the URL of the call. *)
Definition same_request (part_url : string) (start end_ : Z) (e : event) : Prop :=
  match e with
  | EvRead s n => s = start /\ n = end_ - start
  | EvPut u n => u = part_url /\ n = end_ - start
  | EvUpdate n => n = end_ - start
  | _ => True
  end.

Definition starts_with (c : ascii) (s : string) : bool :=
  match s with
  | EmptyString => false
  | String a _ => Ascii.eqb a c
  end.

Fixpoint ends_with (c : ascii) (s : string) : bool :=
  match s with
  | EmptyString => false
  | String a EmptyString => Ascii.eqb a c
  | String _ s' => ends_with c s'
  end.

(** [c * k] *)
Fixpoint repeat_char (c : ascii) (k : nat) : string :=
  match k with
  | O => EmptyString
  | S k' => String c (repeat_char c k')
  end.

(** [c in s] *)
Fixpoint contains (c : ascii) (s : string) : bool :=
  match s with
  | EmptyString => false
  | String a s' => Ascii.eqb a c || contains c s'
  end.

(** ** More vocabulary for an upload *)

Definition is_update (e : event) : bool :=
  match e with EvUpdate _ => true | _ => false end.

(** The log falls into a first part without [close] and a second part
    without [update]. *)
Definition closed_last (l : list (thread * event)) : Prop :=
  exists l1 l2,
    l = l1 ++ l2 /\
    Forall (fun te => is_close (snd te) = false) l1 /\
    Forall (fun te => is_update (snd te) = false) l2.

(** Strictly ascending by part number. *)
Definition part_lt (a b : PartResult) : Prop := part_number a < part_number b.

Section UploadSpec2.

Variables (md : Metadata) (token : option string) (w : World).

(** The PUT requests of the tasks of the futures [l]. *)
Definition puts_of (l : list nat) : nat :=
  list_sum (map (fun i => puts_issued (task_trace md w i)) l).

(** A second invariant of the transition system: the requests sent so far,
    the file id, and the order of updates and closes. *)
Definition Inv2 (s : state) : Prop :=
  put_requests (log s) = puts_of (finished s) /\
  match st_phase s with
  | Collecting =>
      file_id s = None /\ Forall (fun te => is_close (snd te) = false) (log s)
  | Draining => file_id s = None
  | Done ret =>
      (ret = false -> file_id s = None) /\
      (decided md token w s \/ closed_last (log s))
  end.

End UploadSpec2.

(** ** The command-line layer: exceptions and dictionaries *)

(** Exceptions met outside the upload engine. *)
Inductive py_exn : Type :=
| KeyError (key : string)
| ValueError (msg : string)
| Exn (e : exn).

Inductive outcome (A : Type) : Type :=
| Returns (a : A)
| Raises (e : py_exn).
Arguments Returns {A} a.
Arguments Raises {A} e.

(** [hasattr(e, 'response') and e.response is not None]: the status code of
    the response an exception carries. *)
Definition response_status (e : py_exn) : option Z :=
  match e with
  | Exn (HTTPError st) => Some st
  | _ => None
  end.

(** The keys of the dictionary answered by [initiate_upload] that the code
    reads; [None] is a missing key. *)
Record UploadMetadata : Type := mkUploadMetadata {
  m_upload_type : option string;
  m_url : option string;
  m_headers : option (list (string * string));
  m_chunk_size : option Z;
  m_part_urls : option (list PartInfo);
  m_completion_token : option string;
  m_download_url : option string
}.

(** Python truthiness of an optional string. *)
Definition truthy (o : option string) : bool :=
  match o with
  | None | Some EmptyString => false
  | Some _ => true
  end.

(** ** [Uploader._single_upload] *)

Inductive single_message : Type :=
| SayStartingSingle
| SayStored
| SayFinalized
| SayUploadFailed (e : py_exn)
| SayResponse (status : Z).

Inductive single_event : Type :=
| SPrint (m : single_message)
| SOpen                                               (* open(file_path, 'rb') *)
| SPut (url : string) (headers : list (string * string))   (* session.put(url, data=f) *)
| SClose                                              (* progress.complete() *)
| SCompleteSingle (completion_token : string) (token : option string).

Section SingleUpload.

Variable put_answer : attempt_outcome.     (* the file and the storage *)
Variable complete_answer : post_outcome.   (* POST complete-single-upload *)
Variables (metadata : UploadMetadata) (token : option string).

(** [APIClient.complete_single_upload] *)
Definition complete_single_upload (completion_token : string)
  : list single_event * outcome (option string) :=
  ([SCompleteSingle completion_token token],
   match post complete_answer with
   | Return body => Returns body
   | Raise e => Raises (Exn (RuntimeError "Failed to complete single upload" e))
   end).

(** The body of the [try]: the events, the file id it stores in the
    dictionary, and how it ends. *)
Definition single_try : list single_event * option string * outcome bool :=
  match m_url metadata with
  | None => ([], None, Raises (KeyError "url"))
  | Some url =>
      let headers := match m_headers metadata with Some h => h | None => [] end in
      match put_answer with
      | ReadRaises m => ([SOpen], None, Raises (Exn (OSError m)))
      | PutRaises m =>
          ([SOpen; SPut url headers], None, Raises (Exn (ConnectionError m)))
      | PutReturns r =>
          match raise_for_status (status_code r) with
          | Some e => ([SOpen; SPut url headers], None, Raises (Exn e))
          | None =>
              let stored := [SOpen; SPut url headers; SClose; SPrint SayStored] in
              match m_completion_token metadata with
              | None => (stored, None, Raises (KeyError "completion_token"))
              | Some ct =>
                  let (evs, result) := complete_single_upload ct in
                  match result with
                  | Raises e => (stored ++ evs, None, Raises e)
                  | Returns body =>
                      (stored ++ evs ++ [SPrint SayFinalized], body, Returns true)
                  end
              end
          end
      end
  end.

(** The function: the [try] and its [except Exception]. *)
Definition _single_upload : list single_event * option string * bool :=
  let '(evs, fid, r) := single_try in
  match r with
  | Returns b => (SPrint SayStartingSingle :: evs, fid, b)
  | Raises e =>
      (SPrint SayStartingSingle :: evs
         ++ SClose :: SPrint (SayUploadFailed e)
         :: match response_status e with
            | Some st => [SPrint (SayResponse st)]
            | None => []
            end,
       fid, false)
  end.

End SingleUpload.

Definition is_sput (e : single_event) : bool :=
  match e with SPut _ _ => true | _ => false end.
Definition is_sclose (e : single_event) : bool :=
  match e with SClose => true | _ => false end.
Definition is_scomplete (e : single_event) : bool :=
  match e with SCompleteSingle _ _ => true | _ => false end.

(** [key in metadata] *)
Definition truthy_key {A : Type} (o : option A) : bool :=
  match o with Some _ => true | None => false end.

(** The single PUT is answered outside the 4xx and 5xx codes. *)
Definition stored (put_answer : attempt_outcome) : Prop := succeeds put_answer = true.

(** ** [Uploader.upload_file] *)

(** What happens during an upload, single or multipart. *)
Inductive upload_event : Type :=
| InSingle (e : single_event)
| InMultipart (te : thread * event).

(** The three subscriptions at the head of [_multipart_upload], in their
    order; they are outside its [try]. *)
Definition multipart_keys (metadata : UploadMetadata) : outcome Metadata :=
  match m_chunk_size metadata with
  | None => Raises (KeyError "chunk_size")
  | Some chunk_size =>
      match m_part_urls metadata with
      | None => Raises (KeyError "part_urls")
      | Some part_urls =>
          match m_completion_token metadata with
          | None => Raises (KeyError "completion_token")
          | Some completion_token =>
              Returns (mkMetadata chunk_size part_urls completion_token)
          end
      end
  end.

Section UploadFile.

Variable w : World.                        (* the file, the storage, the API *)
Variable single_put : attempt_outcome.     (* the answer to the single PUT *)
Variable sched : list label.               (* the schedule of the pool *)
Variables (metadata : UploadMetadata) (token : option string).

(** The call of [_multipart_upload] on the dictionary.  [None]: the schedule
    ends before the function returns. *)
Definition multipart_call : option (list upload_event * option string * outcome bool) :=
  match multipart_keys metadata with
  | Raises e => Some ([], None, Raises e)
  | Returns md =>
      let s := _multipart_upload md token w sched in
      match st_phase s with
      | Done ret => Some (map InMultipart (log s), file_id s, Returns ret)
      | _ => None
      end
  end.

Definition upload_file : option (list upload_event * option string * outcome bool) :=
  let upload_type := m_upload_type metadata in
  match upload_type with
  | Some t =>
      if String.eqb t "single" then
        let '(evs, fid, ret) :=
          _single_upload single_put (complete_post w) metadata token in
        Some (map InSingle evs, fid, Returns ret)
      else if String.eqb t "multipart" then multipart_call
      else Some ([], None, Raises (ValueError "Unknown upload type"))
  | None => Some ([], None, Raises (ValueError "Unknown upload type"))
  end.

End UploadFile.

(** ** [ClientAuth.get_token], [APIClient], [main] *)

(** Exceptions that no handler of the tool catches. *)
Inductive uncaught : Type :=
| AttributeError (msg : string)        (* [data.get] on JSON that is no object *)
| UnicodeDecodeError (msg : string).   (* a token file that is no text *)

Inductive crash (A : Type) : Type :=
| Fine (a : A)
| Crash (e : uncaught).
Arguments Fine {A} a.
Arguments Crash {A} e.

Inductive main_message : Type :=
| SayArgparseHelp                  (* printed by argparse on -h / --help *)
| SayUsageError                    (* printed by argparse on a usage error *)
| SayHelp                          (* parser.print_help() *)
| SayFileNotFound (file : string)
| SayFile (filename : string)
| SaySize (file_size : Z)
| SayRegion (bucket_code : string)
| SayApiServer (api_url : string)
| SayTokenFileWarning
| SayAnonymous
| SayRequesting
| SayError (e : py_exn)
| SayUploadType (upload_type : option string)
| SaySuccess
| SayFileId (link : string)
| SayDownloadLink (url : string).

Inductive main_event : Type :=
| MPrint (m : main_message)
| MReadTokenFile                        (* open(token_file), json.load *)
| MInitiate (url : string) (file_size : Z) (token : option string)
| MUpload (e : upload_event).

(** The token file: absent; unreadable in a way the handler catches (IOError,
    JSONDecodeError); a JSON object, whose ['token'] entry is given; or
    something that makes [json.load] or [data.get] raise another exception. *)
Inductive token_file_state : Type :=
| NoTokenFile
| BadTokenFile
| TokenFile (tok : option string)
| AlienTokenFile (e : uncaught).

(** [ClientAuth.get_token] *)
Definition get_token (token : option string) (tf : token_file_state)
  : list main_event * crash (option string) :=
  if truthy token then ([], Fine token)
  else
    match tf with
    | NoTokenFile => ([], Fine None)
    | BadTokenFile => ([MReadTokenFile; MPrint SayTokenFileWarning], Fine None)
    | TokenFile tok => ([MReadTokenFile], Fine tok)
    | AlienTokenFile e => ([MReadTokenFile], Crash e)
    end.

(** [APIClient.__init__] and the URL of an endpoint. *)
Definition slash : ascii := Eval cbv in ascii_of_nat 47.

Definition api_base_url (api_url : string) : string := rstrip slash api_url.

Definition endpoint (api_url path : string) : string :=
  (api_base_url api_url ++ String slash path ++ String slash EmptyString)%string.

(** [s.rsplit(c, 1)[0]]: what precedes the last [c], or [s] without [c]. *)
Fixpoint before_last (c : ascii) (s : string) : option string :=
  match s with
  | EmptyString => None
  | String a s' =>
      match before_last c s' with
      | Some r => Some (String a r)
      | None => if Ascii.eqb a c then Some EmptyString else None
      end
  end.

Definition rsplit1_head (c : ascii) (s : string) : string :=
  match before_last c s with
  | Some r => r
  | None => s
  end.

(** [main_domain = args.api_url.rstrip("/").rsplit("/", 1)[0]] *)
Definition main_domain (api_url : string) : string :=
  rsplit1_head slash (rstrip slash api_url).

Definition file_link (api_url file_id : string) : string :=
  (main_domain api_url ++ String slash file_id ++ String slash EmptyString)%string.

(** What [session.post] to [initiate-upload] does. *)
Inductive initiate_outcome : Type :=
| InitiateRaises (msg : string)
| InitiateReturns (status : Z) (json : UploadMetadata).

(** [APIClient.initiate_upload]; of the payload the event keeps the file size
    and the token. *)
Definition initiate_upload (o : initiate_outcome) (api_url : string) (file_size : Z)
    (token : option string) : list main_event * outcome UploadMetadata :=
  ([MInitiate (endpoint api_url "initiate-upload") file_size token],
   match o with
   | InitiateRaises m =>
       Raises (Exn (RuntimeError "Failed to initiate upload" (ConnectionError m)))
   | InitiateReturns st json =>
       match raise_for_status st with
       | Some e => Raises (Exn (RuntimeError "Failed to initiate upload" e))
       | None => Returns json
       end
   end).

(** The namespace returned by [parser.parse_args()]. *)
Record Args : Type := mkArgs {
  arg_command : bool;              (* [args.command] is ['upload'], not [None] *)
  arg_file : string;
  arg_bucket_code : string;
  arg_api_url : string;
  arg_token : option string
}.

(** What [parser.parse_args()] does: [SystemExit(0)] after printing the help
    for [-h], [SystemExit(2)] after a usage error, or a namespace. *)
Inductive parse_outcome : Type :=
| ParseHelp
| ParseUsageError
| Parsed (args : Args).

(** The outside world of one run of the tool. *)
Record MainWorld : Type := mkMainWorld {
  file_exists : bool;                 (* os.path.exists(args.file) *)
  file_name : string;                 (* os.path.basename(os.path.abspath(args.file)) *)
  token_file : token_file_state;
  initiate_post : initiate_outcome;
  single_put : attempt_outcome;
  upload_world : World;
  pool_schedule : list label
}.

(** How [main] ends: it returns a code, which the caller hands to
    [sys.exit]; [parse_args] raises [SystemExit]; or an exception that nothing
    catches ends the process with a traceback. *)
Inductive main_outcome : Type :=
| MainReturns (code : Z)
| MainExits (code : Z)
| MainRaises (e : uncaught).

(** The exit status of the process. *)
Definition exit_status (o : main_outcome) : Z :=
  match o with
  | MainReturns code | MainExits code => code
  | MainRaises _ => 1
  end.

(** [main] from [auth = ClientAuth(...)] on.  [None]: the schedule of the
    pool ends before the multipart upload returns. *)
Definition main_upload (args : Args) (mw : MainWorld)
  : option (main_outcome * list main_event) :=
  let file_size := file_size (upload_world mw) in
  let (tok_evs, loaded) := get_token (arg_token args) (token_file mw) in
  match loaded with
  | Crash e => Some (MainRaises e, tok_evs)
  | Fine token =>
      let before :=
        tok_evs ++ (if truthy token then [] else [MPrint SayAnonymous])
                ++ [MPrint SayRequesting] in
      let (init_evs, r) :=
        initiate_upload (initiate_post mw) (arg_api_url args) file_size token in
      match r with
      | Raises e => Some (MainReturns 1, before ++ init_evs ++ [MPrint (SayError e)])
      | Returns metadata =>
          let started :=
            before ++ init_evs ++ [MPrint (SayUploadType (m_upload_type metadata))] in
          match upload_file (upload_world mw) (single_put mw) (pool_schedule mw)
                            metadata token with
          | None => None
          | Some (evs, _, Raises e) =>
              Some (MainReturns 1, started ++ map MUpload evs ++ [MPrint (SayError e)])
          | Some (evs, _, Returns false) =>
              Some (MainReturns 1, started ++ map MUpload evs)
          | Some (evs, file_id, Returns true) =>
              Some (MainReturns 0,
                    started ++ map MUpload evs ++ MPrint SaySuccess
                      :: (if truthy file_id
                          then [MPrint (SayFileId
                                  (file_link (arg_api_url args)
                                     match file_id with
                                     | Some f => f
                                     | None => EmptyString
                                     end))]
                          else [])
                      ++ (if truthy (m_download_url metadata)
                          then [MPrint (SayDownloadLink
                                  match m_download_url metadata with
                                  | Some u => u
                                  | None => EmptyString
                                  end)]
                          else []))
          end
      end
  end.

(** The four lines printed before the token is looked up. *)
Definition file_info (args : Args) (mw : MainWorld) : list main_event :=
  [MPrint (SayFile (file_name mw));
   MPrint (SaySize (file_size (upload_world mw)));
   MPrint (SayRegion (arg_bucket_code args));
   MPrint (SayApiServer (arg_api_url args))].

(** [main]: how it ends and what happened. *)
Definition main (parsed : parse_outcome) (mw : MainWorld)
  : option (main_outcome * list main_event) :=
  match parsed with
  | ParseHelp => Some (MainExits 0, [MPrint SayArgparseHelp])
  | ParseUsageError => Some (MainExits 2, [MPrint SayUsageError])
  | Parsed args =>
      if negb (arg_command args) then Some (MainReturns 1, [MPrint SayHelp])
      else if negb (file_exists mw)
      then Some (MainReturns 1, [MPrint (SayFileNotFound (arg_file args))])
      else
        match main_upload args mw with
        | Some (o, evs) => Some (o, file_info args mw ++ evs)
        | None => None
        end
  end.

Definition is_upload (e : main_event) : bool :=
  match e with MUpload _ => true | _ => false end.
Definition is_initiate (e : main_event) : bool :=
  match e with MInitiate _ _ _ => true | _ => false end.
Definition is_api_server_line (e : main_event) : bool :=
  match e with MPrint (SayApiServer _) => true | _ => false end.

(** The events without the line ['API Server: ...']. *)
Definition apart_from_api_server_line (evs : list main_event) : list main_event :=
  filter (fun e => negb (is_api_server_line e)) evs.

(** ** Specification vocabulary for the command-line layer *)

(** Everything a single upload needs to succeed. *)
Definition single_ok (put_answer : attempt_outcome) (complete_answer : post_outcome)
    (metadata : UploadMetadata) : Prop :=
  (exists url, m_url metadata = Some url) /\
  stored put_answer /\
  (exists ct, m_completion_token metadata = Some ct) /\
  exists body, post complete_answer = Return body.

(** Everything a multipart upload needs to succeed. *)
Definition multipart_ok (w : World) (metadata : UploadMetadata) : Prop :=
  exists md,
    multipart_keys metadata = Returns md /\
    all_parts_succeed md w /\
    exists body, post (complete_post w) = Return body.

(** The initiate request is answered with the dictionary [metadata]. *)
Definition initiated (o : initiate_outcome) (metadata : UploadMetadata) : Prop :=
  exists st, o = InitiateReturns st metadata /\ raise_for_status st = None.

Definition upload_ok (mw : MainWorld) (metadata : UploadMetadata) : Prop :=
  (m_upload_type metadata = Some "single"%string /\
   single_ok (single_put mw) (complete_post (upload_world mw)) metadata) \/
  (m_upload_type metadata = Some "multipart"%string /\
   multipart_ok (upload_world mw) metadata).

(** The token file is not consulted, or it does not make [get_token] raise. *)
Definition token_loads (args : Args) (mw : MainWorld) : Prop :=
  truthy (arg_token args) = true \/ forall e, token_file mw <> AlienTokenFile e.

(** The token [main] works with, when [get_token] returns. *)
Definition effective_token (args : Args) (mw : MainWorld) : option string :=
  if truthy (arg_token args) then arg_token args
  else match token_file mw with
       | TokenFile tok => tok
       | NoTokenFile | BadTokenFile | AlienTokenFile _ => None
       end.

Definition with_api_url (args : Args) (api_url : string) : Args :=
  mkArgs (arg_command args) (arg_file args) (arg_bucket_code args) api_url
         (arg_token args).

(** ** More example inputs *)

(** A first attempt answered with a 200 and a quoted entity tag. *)
Definition quoted_storage (attempt : Z) : attempt_outcome := ok_with_tag "abc".

(** A descriptor without parts. *)
Definition md_empty : Metadata := mkMetadata 10 [] "ctok".

(** The tool is run on an existing file, without token, against an API that
    asks for a multipart upload in three parts; everything succeeds. *)
Definition args_ex : Args :=
  mkArgs true "photo.jpg" "eu" "https://zerofs.link/api/" None.

Definition metadata_multipart : UploadMetadata :=
  mkUploadMetadata (Some "multipart"%string) None None
                   (Some (chunk_size md3)) (Some (part_urls md3))
                   (Some (completion_token md3)) None.

Definition mw_ex : MainWorld :=
  mkMainWorld true "photo.jpg" NoTokenFile (InitiateReturns 200 metadata_multipart)
              (ok_with_tag "a") w_all_ok sched_reverse.

Definition evs_ex : list main_event :=
  match main (Parsed args_ex) mw_ex with
  | Some (_, evs) => evs
  | None => []
  end.

(** The same run with a token file that holds a JSON list: [data.get] raises
    [AttributeError], which [get_token] does not catch. *)
Definition mw_list_token_file : MainWorld :=
  mkMainWorld true "photo.jpg"
              (AlienTokenFile (AttributeError "'list' object has no attribute 'get'"))
              (InitiateReturns 200 metadata_multipart)
              (ok_with_tag "a") w_all_ok sched_reverse.

(** A single upload whose PUT is stored but whose completion request is
    answered with a 500. *)
Definition metadata_single : UploadMetadata :=
  mkUploadMetadata (Some "single"%string) (Some "url"%string) None None None
                   (Some "ctok"%string) None.

(** * Properties *)

(** ** One part: retries, backoff, progress *)

Lemma raise_for_status_Some (st : Z) (e : exn) :
  raise_for_status st = Some e -> e = HTTPError st /\ 400 <= st < 600.
Proof.
  unfold raise_for_status.
  destruct (400 <=? st) eqn:Hlo; destruct (st <? 600) eqn:Hhi; cbn; try discriminate.
  intros [= <-]. split; [reflexivity | lia].
Qed.

Lemma raise_for_status_None (st : Z) :
  raise_for_status st = None <-> ~ (400 <= st < 600).
Proof.
  unfold raise_for_status.
  destruct (400 <=? st) eqn:Hlo; destruct (st <? 600) eqn:Hhi; cbn;
    split; intros H; try discriminate; try reflexivity; try lia.
Qed.

Section UploadPartFacts.

Variables (part_url : string) (part_no start end_ : Z).
Variable storage : Z -> attempt_outcome.

Local Abbreviation body := (attempt_body part_url part_no start end_).
Local Abbreviation loop := (retry_loop part_url part_no start end_ storage).
Local Abbreviation size := (part_size start end_).
Local Abbreviation attempt_spec := (attempt_spec part_url part_no start end_).
Local Abbreviation call_shape := (call_shape part_url part_no start end_ storage).

Lemma attempt_cases (o : attempt_outcome) : attempt_spec o.
Proof.
  destruct o as [m | m | r].
  - now apply attempt_fatal with m.
  - now apply attempt_transient with (ConnectionError m).
  - destruct (raise_for_status (status_code r)) as [e|] eqn:Hst.
    + destruct (raise_for_status_Some _ _ Hst) as [-> _].
      apply attempt_transient with (HTTPError (status_code r)); cbn; now rewrite ?Hst.
    + apply attempt_ok with r; cbn; now rewrite ?Hst.
Qed.

(** Unfolding one iteration of the loop. *)
Lemma loop_retry (attempt : Z) (rest : list Z) :
  transient (storage attempt) = true -> attempt < MAX_RETRIES - 1 ->
  loop (attempt :: rest)
  = ([EvRead start size; EvPut part_url size]
       ++ EvSleep (RETRY_BACKOFF_BASE ^ attempt) :: fst (loop rest),
     snd (loop rest)).
Proof.
  intros Ht Hlt. cbn [retry_loop].
  destruct (attempt_cases (storage attempt)) as [e _ _ He Hb | r Hn | m Hn]; try congruence.
  rewrite Hb, He.
  destruct (attempt <? MAX_RETRIES - 1) eqn:Hc; [ | apply Z.ltb_ge in Hc; lia].
  now destruct (loop rest).
Qed.

Lemma loop_give_up (attempt : Z) (rest : list Z) :
  transient (storage attempt) = true -> MAX_RETRIES - 1 <= attempt ->
  exists e, is_RequestException e = true /\
    snd (body (storage attempt)) = Raise e /\
    loop (attempt :: rest)
    = ([EvRead start size; EvPut part_url size]
         ++ EvPrint (MsgPartFailedAfter part_no MAX_RETRIES e) :: print_response e,
       Some (Raise e)).
Proof.
  intros Ht Hge. cbn [retry_loop].
  destruct (attempt_cases (storage attempt)) as [e _ _ He Hb | r Hn | m Hn]; try congruence.
  exists e. rewrite Hb, He. cbn [snd].
  destruct (attempt <? MAX_RETRIES - 1) eqn:Hc; [apply Z.ltb_lt in Hc; lia | auto].
Qed.

Lemma loop_stop (attempt : Z) (rest : list Z) :
  transient (storage attempt) = false ->
  loop (attempt :: rest)
  = (fst (body (storage attempt)), Some (snd (body (storage attempt)))).
Proof.
  intros Ht. cbn [retry_loop].
  destruct (attempt_cases (storage attempt)) as [e Hn | r _ _ _ Hb | m _ _ _ Hb];
    try congruence; now rewrite Hb.
Qed.

Lemma body_attempts (o : attempt_outcome) :
  attempts_made (fst (body o)) = 1%nat /\ sleeps (fst (body o)) = [].
Proof. destruct (attempt_cases o) as [e _ _ _ Hb | r _ _ _ Hb | m _ _ _ Hb]; now rewrite Hb. Qed.

Lemma call_has_shape : exists k, call_shape k.
Proof.
  unfold call_shape, _upload_part. change (range MAX_RETRIES) with [0; 1; 2; 3; 4].
  assert (Hlast : forall a rest, transient (storage a) = false ->
            attempts_made (fst (loop (a :: rest))) = 1%nat /\
            sleeps (fst (loop (a :: rest))) = [] /\
            snd (loop (a :: rest)) = Some (snd (body (storage a)))).
  { intros a rest Ha. rewrite (loop_stop a rest Ha). cbn [fst snd].
    destruct (body_attempts (storage a)) as [-> ->]. auto. }
  destruct (transient (storage 0)) eqn:T0;
    [ rewrite (loop_retry 0 _ T0) by (unfold MAX_RETRIES; lia)
    | exists 0%nat; destruct (Hlast 0 [1;2;3;4] T0) as (-> & -> & ->);
      repeat split; cbn; try lia; try congruence ].
  destruct (transient (storage 1)) eqn:T1;
    [ rewrite (loop_retry 1 _ T1) by (unfold MAX_RETRIES; lia)
    | exists 1%nat; rewrite (loop_stop 1 _ T1); cbn [fst snd app];
      destruct (body_attempts (storage 1)) as [H1 H2];
      unfold attempts_made in *; cbn; rewrite H1, H2;
      repeat split; cbn; try lia; try congruence;
      intros j Hj; assert (j = 0) as -> by lia; assumption ].
  destruct (transient (storage 2)) eqn:T2;
    [ rewrite (loop_retry 2 _ T2) by (unfold MAX_RETRIES; lia)
    | exists 2%nat; rewrite (loop_stop 2 _ T2); cbn [fst snd app];
      destruct (body_attempts (storage 2)) as [H1 H2];
      unfold attempts_made in *; cbn; rewrite H1, H2;
      repeat split; cbn; try lia; try congruence;
      intros j Hj; assert (j = 0 \/ j = 1) as [-> | ->] by lia; assumption ].
  destruct (transient (storage 3)) eqn:T3;
    [ rewrite (loop_retry 3 _ T3) by (unfold MAX_RETRIES; lia)
    | exists 3%nat; rewrite (loop_stop 3 _ T3); cbn [fst snd app];
      destruct (body_attempts (storage 3)) as [H1 H2];
      unfold attempts_made in *; cbn; rewrite H1, H2;
      repeat split; cbn; try lia; try congruence;
      intros j Hj; assert (j = 0 \/ j = 1 \/ j = 2) as [-> | [-> | ->]] by lia;
      assumption ].
  exists 4%nat.
  assert (Hpre : forall j, 0 <= j < 4 -> transient (storage j) = true).
  { intros j Hj.
    assert (j = 0 \/ j = 1 \/ j = 2 \/ j = 3) as [-> | [-> | [-> | ->]]] by lia;
      assumption. }
  destruct (transient (storage 4)) eqn:T4.
  - destruct (loop_give_up 4 [] T4) as (e & He & Hb & ->); [unfold MAX_RETRIES; lia | ].
    cbn [fst snd app]. change (Z.of_nat 4) with 4. rewrite Hb.
    repeat split; cbn; try lia; auto.
    + now destruct e.
    + now destruct e.
  - rewrite (loop_stop 4 _ T4); cbn [fst snd app].
    destruct (body_attempts (storage 4)) as [H1 H2].
    unfold attempts_made in *; cbn; rewrite H1, H2.
    repeat split; cbn; try lia; auto; congruence.
Qed.

Lemma call_shape_at (k : nat) :
  Z.of_nat k < MAX_RETRIES ->
  (forall j, 0 <= j < Z.of_nat k -> transient (storage j) = true) ->
  (transient (storage (Z.of_nat k)) = true -> Z.of_nat k = MAX_RETRIES - 1) ->
  call_shape k.
Proof.
  intros Hk Hpre Hlast.
  destruct call_has_shape as [k' Hs].
  assert (k' = k) as ->; [ | exact Hs].
  destruct Hs as (Hk' & _ & _ & Hpre' & _ & Hlast').
  destruct (Nat.lt_trichotomy k' k) as [Hlt | [Heq | Hgt]]; [ | exact Heq | ].
  - specialize (Hlast' (Hpre (Z.of_nat k') ltac:(lia))). lia.
  - specialize (Hlast (Hpre' (Z.of_nat k) ltac:(lia))). lia.
Qed.

Lemma upload_part_total :
  exists r, snd (_upload_part part_url part_no start end_ storage) = Some r.
Proof. destruct call_has_shape as [k (_ & _ & _ & _ & -> & _)]. eauto. Qed.

(** What a worker's trace can contain, and where the progress update is. *)
Lemma loop_trace (attempts : list Z) :
  Forall (fun e => is_close e = false /\ is_abort e = false /\ is_complete e = false)
         (fst (loop attempts)) /\
  match snd (loop attempts) with
  | Some (Return pr) =>
      part_number pr = part_no /\
      exists tr, fst (loop attempts)
                 = tr ++ [EvRead start size; EvPut part_url size; EvUpdate size] /\
                 updates tr = []
  | _ => updates (fst (loop attempts)) = []
  end.
Proof.
  induction attempts as [ | a rest [IHall IHres]]; [cbn; auto | ].
  destruct (transient (storage a)) eqn:Ht.
  - destruct (Z_lt_le_dec a (MAX_RETRIES - 1)) as [Hlt | Hge].
    + rewrite (loop_retry a rest Ht Hlt). cbn [fst snd]. split.
      * repeat constructor; auto.
      * destruct (snd (loop rest)) as [[pr | e] | ]; auto.
        destruct IHres as (Hpn & tr & -> & Hup). split; [exact Hpn | ].
        exists ([EvRead start size; EvPut part_url size]
                  ++ EvSleep (RETRY_BACKOFF_BASE ^ a) :: tr).
        split; [now rewrite <- !app_assoc | exact Hup].
    + destruct (loop_give_up a rest Ht Hge) as (e & _ & _ & ->). cbn [fst snd]. split.
      * destruct e; repeat constructor; auto.
      * now destruct e.
  - rewrite (loop_stop a rest Ht). cbn [fst snd].
    destruct (attempt_cases (storage a)) as [e Hn | r _ _ _ Hb | m _ _ _ Hb];
      try congruence; rewrite Hb; cbn [fst snd]; split;
      try (repeat constructor; auto; fail); auto.
    split; [reflexivity | ]. now exists [].
Qed.

End UploadPartFacts.

Lemma succeeds_not_transient (o : attempt_outcome) :
  succeeds o = true -> transient o = false.
Proof.
  destruct o as [m | m | r]; cbn; try discriminate.
  now destruct (raise_for_status (status_code r)).
Qed.

Lemma transient_raises (part_url : string) (part_no start end_ : Z) (o : attempt_outcome) :
  transient o = true ->
  exists e, is_RequestException e = true /\
            snd (attempt_body part_url part_no start end_ o) = Raise e.
Proof.
  intros Ht.
  destruct (attempt_cases part_url part_no start end_ o) as [e _ _ He Hb | r Hn | m Hn];
    try congruence.
  exists e. now rewrite Hb.
Qed.

Lemma succeeds_returns (part_url : string) (part_no start end_ : Z) (o : attempt_outcome) :
  succeeds o = true ->
  exists r, o = PutReturns r /\
    snd (attempt_body part_url part_no start end_ o)
    = Return (mkPartResult part_no (strip dquote (headers_get_ETag r EmptyString))).
Proof.
  intros Hs.
  destruct (attempt_cases part_url part_no start end_ o) as [e _ Hn | r _ _ Ho Hb | m _ Hn];
    try congruence.
  exists r. now rewrite Hb.
Qed.

(** C2. A part is attempted at most [MAX_RETRIES = 5] times.  Every call has
    the shape [call_shape k]: [k] attempts ending in a request exception, each
    followed by a sleep of [2 ^ j] seconds ([j] the zero-based attempt index),
    then one attempt that ends the call.  Any other exception ends the call at
    once.  Four transient failures and a success give the sleeps 1, 2, 4, 8;
    five transient failures give the same four sleeps, five attempts, and the
    request exception of the last attempt raised to the caller. *)
Theorem upload_part_retry_policy
    (part_url : string) (part_no start end_ : Z) (storage : Z -> attempt_outcome) :
  let call := _upload_part part_url part_no start end_ storage in
  Z.of_nat (attempts_made (fst call)) <= MAX_RETRIES /\
  (exists k, call_shape part_url part_no start end_ storage k) /\
  (forall k m,
      0 <= k < MAX_RETRIES ->
      (forall j, 0 <= j < k -> transient (storage j) = true) ->
      storage k = ReadRaises m ->
      snd call = Some (Raise (OSError m)) /\
      Z.of_nat (attempts_made (fst call)) = k + 1 /\
      Z.of_nat (List.length (sleeps (fst call))) = k) /\
  ((forall j, 0 <= j < 4 -> transient (storage j) = true) ->
   succeeds (storage 4) = true ->
   sleeps (fst call) = [1; 2; 4; 8] /\
   attempts_made (fst call) = 5%nat /\
   exists pr, snd call = Some (Return pr)) /\
  ((forall j, 0 <= j < 5 -> transient (storage j) = true) ->
   sleeps (fst call) = [1; 2; 4; 8] /\
   attempts_made (fst call) = 5%nat /\
   exists e, is_RequestException e = true /\ snd call = Some (Raise e)).
Proof.
  intros call. subst call.
  destruct (call_has_shape part_url part_no start end_ storage) as [k0 Hs0].
  split; [ | split; [ | split; [ | split]]].
  - destruct Hs0 as (Hk & -> & _). lia.
  - now exists k0.
  - intros k m Hk Hpre Hst.
    assert (Hs : call_shape part_url part_no start end_ storage (Z.to_nat k)).
    { apply call_shape_at; rewrite ?Z2Nat.id by lia; try lia; auto.
      rewrite Hst. discriminate. }
    destruct Hs as (_ & -> & -> & _ & -> & _).
    rewrite Z2Nat.id, Hst by lia. unfold range. rewrite !length_map, length_seq.
    cbn [attempt_body snd]. repeat split; lia.
  - intros Hpre Hok.
    assert (Hs : call_shape part_url part_no start end_ storage 4).
    { apply call_shape_at; [reflexivity | exact Hpre | ].
      change (Z.of_nat 4) with 4. rewrite (succeeds_not_transient _ Hok). discriminate. }
    unfold call_shape in Hs. change (Z.of_nat 4) with 4 in Hs.
    destruct Hs as (_ & -> & -> & _ & -> & _).
    destruct (succeeds_returns part_url part_no start end_ _ Hok) as (r & _ & ->).
    repeat split; eauto.
  - intros Hall.
    assert (Hs : call_shape part_url part_no start end_ storage 4).
    { apply call_shape_at; [reflexivity | | reflexivity].
      intros j Hj. apply Hall. change (Z.of_nat 4) with 4 in Hj. lia. }
    unfold call_shape in Hs. change (Z.of_nat 4) with 4 in Hs.
    destruct Hs as (_ & -> & -> & _ & -> & _).
    destruct (transient_raises part_url part_no start end_ (storage 4)) as (e & He & ->);
      [apply Hall; lia | ].
    repeat split; eauto.
Qed.

Lemma upload_part_retry_policy_witness :
  sleeps (fst (_upload_part "u" 1 0 10 flaky_storage)) = [1; 2; 4; 8] /\
  attempts_made (fst (_upload_part "u" 1 0 10 flaky_storage)) = 5%nat /\
  exists pr, snd (_upload_part "u" 1 0 10 flaky_storage) = Some (Return pr).
Proof.
  apply (proj1 (proj2 (proj2 (proj2 (upload_part_retry_policy "u" 1 0 10 flaky_storage))))).
  - intros j Hj. unfold flaky_storage.
    destruct (j <? 4) eqn:E; [reflexivity | apply Z.ltb_ge in E; lia].
  - reflexivity.
Defined.

Lemma updates_app (tr1 tr2 : list event) :
  updates (tr1 ++ tr2) = updates tr1 ++ updates tr2.
Proof.
  induction tr1 as [ | e tr1 IH]; [reflexivity | ].
  destruct e; cbn; now rewrite IH.
Qed.

(** The progress bar is updated once, with [end - start], by the attempt that
    returns, and not at all by a call that raises. *)
Lemma upload_part_updates
    (part_url : string) (part_no start end_ : Z) (storage : Z -> attempt_outcome) :
  match snd (_upload_part part_url part_no start end_ storage) with
  | Some (Return pr) =>
      part_number pr = part_no /\
      exists tr, fst (_upload_part part_url part_no start end_ storage)
                 = tr ++ [EvRead start (end_ - start); EvPut part_url (end_ - start);
                          EvUpdate (end_ - start)] /\
                 updates tr = [] /\
                 updates (fst (_upload_part part_url part_no start end_ storage))
                 = [end_ - start]
  | _ => updates (fst (_upload_part part_url part_no start end_ storage)) = []
  end.
Proof.
  unfold _upload_part.
  destruct (loop_trace part_url part_no start end_ storage (range MAX_RETRIES)) as [_ H].
  destruct (snd (retry_loop _ _ _ _ _ _)) as [[pr | e] | ]; auto.
  destruct H as (Hpn & tr & Htr & Hup). split; [exact Hpn | ].
  exists tr. rewrite Htr, updates_app, Hup. auto.
Qed.

(** C10. A response outside the 4xx/5xx codes -- a 2xx one in particular --
    that carries no entity tag ends the call with a successful [PartResult]
    whose [etag] is the empty string: nothing is raised, the attempt is the
    last one, and the part's bytes are reported to the progress bar. *)
Theorem missing_etag_is_success
    (part_url : string) (part_no start end_ : Z) (storage : Z -> attempt_outcome)
    (k : Z) (r : Response) :
  0 <= k < MAX_RETRIES ->
  (forall j, 0 <= j < k -> transient (storage j) = true) ->
  storage k = PutReturns r ->
  200 <= status_code r < 300 ->
  ETag r = None ->
  let call := _upload_part part_url part_no start end_ storage in
  snd call = Some (Return (mkPartResult part_no EmptyString)) /\
  Z.of_nat (attempts_made (fst call)) = k + 1 /\
  updates (fst call) = [end_ - start].
Proof.
  intros Hk Hpre Hst H2xx Htag call. subst call.
  assert (Hnone : raise_for_status (status_code r) = None)
    by (apply raise_for_status_None; lia).
  assert (Hs : call_shape part_url part_no start end_ storage (Z.to_nat k)).
  { apply call_shape_at; rewrite ?Z2Nat.id by lia; try lia; auto.
    rewrite Hst. cbn. now rewrite Hnone. }
  destruct Hs as (_ & Hatt & _ & _ & Hres & _).
  rewrite Z2Nat.id, Hst in Hres by lia. cbn [attempt_body] in Hres.
  rewrite Hnone in Hres. unfold headers_get_ETag in Hres. rewrite Htag in Hres.
  cbn [snd strip lstrip rstrip] in Hres.
  pose proof (upload_part_updates part_url part_no start end_ storage) as Hup.
  rewrite Hres in Hup. destruct Hup as (_ & tr & _ & _ & Hup).
  rewrite Hres, Hatt, Hup. repeat split. lia.
Qed.

Lemma missing_etag_is_success_witness :
  snd (_upload_part "u" 7 60 70 tagless_storage)
  = Some (Return (mkPartResult 7 EmptyString)) /\
  Z.of_nat (attempts_made (fst (_upload_part "u" 7 60 70 tagless_storage))) = 1 + 1 /\
  updates (fst (_upload_part "u" 7 60 70 tagless_storage)) = [70 - 60].
Proof.
  apply (missing_etag_is_success "u" 7 60 70 tagless_storage 1 (mkResponse 204 None)).
  - unfold MAX_RETRIES. lia.
  - intros j Hj. assert (j = 0) as -> by lia. reflexivity.
  - reflexivity.
  - simpl. lia.
  - reflexivity.
Defined.

(** ** The part plan *)

Lemma ceil_div_bounds (a b : Z) :
  0 < b -> b * (ceil_div a b - 1) < a <= b * ceil_div a b.
Proof.
  intros Hb. unfold ceil_div.
  pose proof (Z.div_mod (a + b - 1) b ltac:(lia)) as Hdm.
  pose proof (Z.mod_pos_bound (a + b - 1) b Hb) as Hm.
  lia.
Qed.

Lemma ceil_div_nonneg (a b : Z) : 0 <= a -> 0 < b -> 0 <= ceil_div a b.
Proof. intros Ha Hb. unfold ceil_div. apply Z.div_pos; lia. Qed.

Lemma submitted_nth (md : Metadata) (fsize : Z) (i : nat) :
  nth_error (submitted md fsize) i
  = option_map (submit (chunk_size md) fsize) (nth_error (part_urls md) i).
Proof. unfold submitted. apply nth_error_map. Qed.

Lemma submitted_length (md : Metadata) (fsize : Z) :
  List.length (submitted md fsize) = List.length (part_urls md).
Proof. unfold submitted. apply length_map. Qed.

Lemma well_formed_length (md : Metadata) (fsize : Z) :
  well_formed md fsize ->
  Z.of_nat (List.length (part_urls md)) = ceil_div fsize (chunk_size md).
Proof.
  intros (Hs & Hc & Hnum).
  apply (f_equal (@List.length Z)) in Hnum.
  rewrite !length_map, length_seq in Hnum. rewrite Hnum.
  apply Z2Nat.id. now apply ceil_div_nonneg.
Qed.

Lemma well_formed_nth (md : Metadata) (fsize : Z) (i : nat) (t : Task) :
  well_formed md fsize ->
  nth_error (submitted md fsize) i = Some t ->
  Z.of_nat i < ceil_div fsize (chunk_size md) /\
  task_part_number t = Z.of_nat i + 1 /\
  task_start t = Z.of_nat i * chunk_size md /\
  task_end t = Z.min (task_start t + chunk_size md) fsize.
Proof.
  intros Hwf Hnth.
  pose proof (well_formed_length md fsize Hwf) as Hlen.
  destruct Hwf as (Hs & Hc & Hnum).
  assert (Hi : (i < List.length (part_urls md))%nat).
  { rewrite <- submitted_length with (fsize := fsize).
    apply nth_error_Some. congruence. }
  rewrite submitted_nth in Hnth.
  destruct (nth_error (part_urls md) i) as [part_info | ] eqn:Hinfo; [ | discriminate].
  injection Hnth as <-.
  assert (Hpn : info_part_number part_info = Z.of_nat i + 1).
  { pose proof (map_nth_error info_part_number _ _ Hinfo) as Hm.
    rewrite Hnum, nth_error_map, nth_error_seq in Hm.
    destruct (i <? _)%nat eqn:Hlt in Hm; [ | discriminate].
    cbn in Hm. injection Hm as <-. lia. }
  cbn [submit task_part_number task_start task_end]. rewrite Hpn.
  repeat split; lia.
Qed.

(** C4. For a well-formed descriptor ([file_size >= 0], [chunk_size > 0], part
    numbers [1 .. ceil(file_size / chunk_size)]) the dispatch loop submits
    [ceil(file_size / chunk_size)] tasks; the task of part [p] has the range
    [start = (p - 1) * chunk_size], [end = min(start + chunk_size, file_size)];
    every range is non-empty, the first starts at 0, each range ends where the
    next one starts, the last ends at [file_size]; hence every byte offset of
    the file lies in the range of exactly one task. *)
Theorem byte_ranges_partition (md : Metadata) (fsize : Z) :
  well_formed md fsize ->
  let ts := submitted md fsize in
  Z.of_nat (List.length ts) = ceil_div fsize (chunk_size md) /\
  (forall i t, nth_error ts i = Some t ->
     task_part_number t = Z.of_nat i + 1 /\
     task_start t = (task_part_number t - 1) * chunk_size md /\
     task_end t = Z.min (task_start t + chunk_size md) fsize /\
     task_start t < task_end t) /\
  (forall t, nth_error ts 0 = Some t -> task_start t = 0) /\
  (forall i t t', nth_error ts i = Some t -> nth_error ts (S i) = Some t' ->
     task_end t = task_start t') /\
  (forall t, nth_error ts (List.length ts - 1) = Some t -> task_end t = fsize) /\
  (forall b, 0 <= b < fsize ->
     exists i t, nth_error ts i = Some t /\ task_start t <= b < task_end t /\
       forall i' t', nth_error ts i' = Some t' ->
                     task_start t' <= b < task_end t' -> i' = i).
Proof.
  intros Hwf ts. subst ts.
  pose proof (well_formed_length md fsize Hwf) as Hlen.
  pose proof (submitted_length md fsize) as Hsub.
  assert (Hc : 0 < chunk_size md) by apply Hwf.
  pose proof (ceil_div_bounds fsize (chunk_size md) Hc) as Hceil.
  set (c := chunk_size md) in *. set (N := ceil_div fsize c) in *.
  split; [lia | ].
  split; [ | split; [ | split; [ | split]]].
  - intros i t Hnth.
    destruct (well_formed_nth md fsize i t Hwf Hnth) as (Hi & Hpn & Hst & Hen).
    fold c N in Hi, Hst, Hen. repeat split; try lia; try nia.
  - intros t Hnth.
    destruct (well_formed_nth md fsize 0 t Hwf Hnth) as (_ & _ & Hst & _). lia.
  - intros i t t' Hnth Hnth'.
    destruct (well_formed_nth md fsize i t Hwf Hnth) as (_ & _ & Hst & Hen).
    destruct (well_formed_nth md fsize (S i) t' Hwf Hnth') as (Hi & _ & Hst' & _).
    fold c N in Hi, Hst, Hen, Hst'. nia.
  - intros t Hnth.
    destruct (well_formed_nth md fsize _ t Hwf Hnth) as (Hi & _ & Hst & Hen).
    fold c N in Hi, Hst, Hen.
    assert (Hpos : (0 < List.length (submitted md fsize))%nat).
    { assert (List.length (submitted md fsize) - 1 < List.length (submitted md fsize))%nat
        by (apply nth_error_Some; congruence).
      lia. }
    nia.
  - intros b Hb.
    assert (Hq : 0 <= b / c < N).
    { split; [apply Z.div_pos; lia | ].
      apply Z.div_lt_upper_bound; nia. }
    pose proof (Z.div_mod b c ltac:(lia)) as Hdm.
    pose proof (Z.mod_pos_bound b c Hc) as Hm.
    destruct (nth_error (submitted md fsize) (Z.to_nat (b / c))) as [t | ] eqn:Hnth.
    + exists (Z.to_nat (b / c)), t.
      destruct (well_formed_nth md fsize _ t Hwf Hnth) as (_ & _ & Hst & Hen).
      fold c N in Hst, Hen. rewrite Z2Nat.id in Hst by lia.
      split; [exact Hnth | split; [nia | ]].
      intros i' t' Hnth' Hin.
      destruct (well_formed_nth md fsize _ t' Hwf Hnth') as (_ & _ & Hst' & Hen').
      fold c N in Hst', Hen'.
      assert (Z.of_nat i' = b / c); [ | lia].
      apply Z.div_unique with (r := b - Z.of_nat i' * c); nia.
    + apply nth_error_None in Hnth. lia.
Qed.

(** ** The stable sort of the collected results *)

Lemma insert_part_perm (x : PartResult) (l : list PartResult) :
  Permutation (insert_part x l) (x :: l).
Proof.
  induction l as [ | y l IH]; cbn; [reflexivity | ].
  destruct (part_number x <=? part_number y); [reflexivity | ].
  rewrite IH. apply perm_swap.
Qed.

Lemma sort_parts_perm (l : list PartResult) : Permutation (sort_parts l) l.
Proof.
  induction l as [ | x l IH]; cbn; [reflexivity | ].
  rewrite insert_part_perm. now constructor.
Qed.

Lemma insert_part_ascending (x : PartResult) (l : list PartResult) :
  ascending l -> ascending (insert_part x l).
Proof.
  unfold ascending. induction 1 as [ | y l Hl IH Hy]; cbn.
  - repeat constructor.
  - destruct (part_number x <=? part_number y) eqn:Hxy.
    + apply Z.leb_le in Hxy. constructor; [now constructor | ].
      constructor; [exact Hxy | ].
      eapply Forall_impl; [ | exact Hy]. unfold part_le. intros; lia.
    + apply Z.leb_gt in Hxy. constructor; [exact IH | ].
      rewrite insert_part_perm. constructor; [unfold part_le; lia | exact Hy].
Qed.

Lemma sort_parts_ascending (l : list PartResult) : ascending (sort_parts l).
Proof.
  induction l as [ | x l IH]; cbn; [constructor | now apply insert_part_ascending].
Qed.

(** ** Logs *)

Lemma mem_In (i : nat) (l : list nat) : mem i l = true <-> In i l.
Proof.
  unfold mem. rewrite existsb_exists. split.
  - intros (j & Hj & Heq). apply Nat.eqb_eq in Heq. now subst.
  - intros Hi. exists i. now rewrite Nat.eqb_refl.
Qed.

Lemma mem_not_In (i : nat) (l : list nat) : mem i l = false <-> ~ In i l.
Proof. rewrite <- mem_In. destruct (mem i l); split; congruence. Qed.

Lemma main_log_app (l1 l2 : list (thread * event)) :
  main_log (l1 ++ l2) = main_log l1 ++ main_log l2.
Proof. unfold main_log. now rewrite filter_app, map_app. Qed.

Lemma main_log_main (evs : list event) : main_log (tagged Main evs) = evs.
Proof. induction evs as [ | e evs IH]; cbn; [ | rewrite <- IH at 2]; reflexivity. Qed.

Lemma main_log_worker (i : nat) (evs : list event) : main_log (tagged (Worker i) evs) = [].
Proof. induction evs as [ | e evs IH]; cbn; auto. Qed.

Lemma worker_log_app (i : nat) (l1 l2 : list (thread * event)) :
  worker_log i (l1 ++ l2) = worker_log i l1 ++ worker_log i l2.
Proof. unfold worker_log. now rewrite filter_app, map_app. Qed.

Lemma worker_log_main (i : nat) (evs : list event) : worker_log i (tagged Main evs) = [].
Proof. induction evs as [ | e evs IH]; cbn; auto. Qed.

Lemma worker_log_worker (i j : nat) (evs : list event) :
  worker_log i (tagged (Worker j) evs) = if Nat.eqb i j then evs else [].
Proof.
  unfold worker_log, tagged.
  induction evs as [ | e evs IH]; cbn [map filter]; [now destruct (Nat.eqb i j) | ].
  change (is_worker i (Worker j, e)) with (Nat.eqb i j).
  destruct (Nat.eqb i j) eqn:E; cbn [map snd]; rewrite IH; reflexivity.
Qed.

Lemma sink_app (l1 l2 : list (thread * event)) :
  sink (l1 ++ l2) = fold_left sink_step l2 (sink l1).
Proof. unfold sink. apply fold_left_app. Qed.

(** A trace without [close], on an open bar, adds its updates. *)
Lemma sink_open (t : thread) (evs : list event) (n : Z) :
  Forall (fun e => is_close e = false) evs ->
  fold_left sink_step (tagged t evs) (ProgressTracker.mk n false)
  = ProgressTracker.mk (n + sum_Z (updates evs)) false.
Proof.
  intros Hall. unfold tagged. revert n.
  induction Hall as [ | e evs He _ IH]; intros n; cbn [map fold_left];
    [cbn; f_equal; lia | ].
  destruct e; try discriminate; unfold sink_step at 2; cbn [snd];
    try (rewrite IH; reflexivity).
  unfold ProgressTracker.update. cbn [ProgressTracker.closed ProgressTracker.n].
  rewrite IH.
  unfold sum_Z. cbn [updates fold_right]. f_equal. lia.
Qed.

(** Once closed, the counter stays. *)
Lemma sink_closed (l : list (thread * event)) (n : Z) :
  fold_left sink_step l (ProgressTracker.mk n true) = ProgressTracker.mk n true.
Proof.
  induction l as [ | [t e] l IH]; cbn; [reflexivity | ].
  destruct e; cbn; exact IH.
Qed.

Lemma total_reported_app (md : Metadata) (w : World) (l1 l2 : list nat) :
  total_reported md w (l1 ++ l2) = total_reported md w l1 + total_reported md w l2.
Proof.
  unfold total_reported, sum_Z. rewrite map_app.
  induction (map (bytes_reported md w) l1) as [ | x xs IH]; cbn [app fold_right]; lia.
Qed.

Lemma total_reported_perm (md : Metadata) (w : World) (l1 l2 : list nat) :
  Permutation l1 l2 -> total_reported md w l1 = total_reported md w l2.
Proof.
  unfold total_reported, sum_Z. induction 1; cbn [map fold_right]; lia.
Qed.

(** A duplicate-free list of [n] numbers below [n] is a permutation of
    [0 .. n-1]. *)
Lemma full_permutation (l : list nat) (n : nat) :
  NoDup l -> (forall i, In i l -> (i < n)%nat) -> List.length l = n ->
  Permutation l (seq 0 n).
Proof.
  intros Hnd Hlt Hlen.
  apply NoDup_Permutation_bis; [exact Hnd | rewrite length_seq; lia | ].
  intros i Hi. apply in_seq. specialize (Hlt i Hi). lia.
Qed.

Lemma all_finished_spec (md : Metadata) (w : World) (s : state) :
  all_finished md w s = true <->
  forall i, (i < List.length (tasks md w))%nat -> In i (finished s).
Proof.
  unfold all_finished. rewrite forallb_forall. split.
  - intros H i Hi. apply mem_In, H, in_seq. lia.
  - intros H i Hi. apply mem_In, H. apply in_seq in Hi. lia.
Qed.

(** The trace of a task contains no [close], no abort call and no
    completion call. *)
Lemma task_trace_events (md : Metadata) (w : World) (i : nat) :
  Forall (fun e => is_close e = false /\ is_abort e = false /\ is_complete e = false)
         (task_trace md w i).
Proof.
  unfold task_trace. destruct (nth_error (tasks md w) i) as [t | ]; [ | constructor].
  unfold run_task, _upload_part.
  destruct (loop_trace (task_url t) (task_part_number t) (task_start t) (task_end t)
              (storage w i) (range MAX_RETRIES)) as [Hall _].
  now destruct (retry_loop _ _ _ _ _ _) as [tr r].
Qed.

Lemma task_trace_no_close (md : Metadata) (w : World) (i : nat) :
  Forall (fun e => is_close e = false) (task_trace md w i).
Proof.
  eapply Forall_impl; [ | apply task_trace_events]. now intros e (H & _).
Qed.

Lemma NoDup_snoc (l : list nat) (x : nat) : NoDup l -> ~ In x l -> NoDup (l ++ [x]).
Proof.
  intros Hl Hx. apply Permutation_NoDup with (x :: l).
  - apply Permutation_cons_append.
  - now constructor.
Qed.

Lemma mem_snoc (j i : nat) (l : list nat) : mem j (l ++ [i]) = mem j l || Nat.eqb j i.
Proof. unfold mem. rewrite existsb_app. cbn. now rewrite orb_false_r. Qed.

Lemma Forall2_left {A B : Type} (R : A -> B -> Prop) (l : list A) (l' : list B) :
  Forall2 R l l' -> Forall (fun a => exists b, R a b) l.
Proof. induction 1; constructor; eauto. Qed.

(** ** The invariant holds along every schedule *)

Section Invariant.

Variables (md : Metadata) (token : option string) (w : World).

Lemma init_inv : Inv md token w (init md w).
Proof.
  unfold Inv, init. cbn. repeat split; try constructor; try (intros; contradiction).
  intros i Hi. contradiction.
Qed.

Lemma task_trace_nth (i : nat) (t : Task) :
  nth_error (tasks md w) i = Some t -> task_trace md w i = fst (run_task w i t).
Proof. unfold task_trace. now intros ->. Qed.

Lemma work_inv (s : state) (i : nat) (t : Task) :
  Inv md token w s ->
  nth_error (tasks md w) i = Some t ->
  mem i (finished s) = false ->
  Inv md token w
    (mkState (finished s ++ [i]) (yielded s) (parts s)
             (log s ++ tagged (Worker i) (fst (run_task w i t)))
             (st_phase s) (file_id s)).
Proof.
  intros (Hfd & Hflt & Hyd & Hyf & Hwl & Hph) Hnth Hmem.
  assert (Hnot : ~ In i (finished s)) by now apply mem_not_In.
  unfold Inv. cbn [finished yielded parts log st_phase file_id].
  split; [now apply NoDup_snoc | ].
  split.
  { intros j Hj. apply in_app_or in Hj. destruct Hj as [Hj | [<- | []]]; auto.
    apply nth_error_Some. congruence. }
  split; [exact Hyd | ].
  split; [now apply incl_appl | ].
  split.
  { intros j. rewrite worker_log_app, worker_log_worker, mem_snoc, Hwl.
    destruct (Nat.eqb j i) eqn:Hji.
    - apply Nat.eqb_eq in Hji. subst j. rewrite Hmem. cbn.
      symmetry. now apply task_trace_nth.
    - rewrite orb_false_r, app_nil_r. reflexivity. }
  destruct (st_phase s) as [ | | ret].
  - destruct Hph as (Hcol & Hmain & Hsink).
    split; [exact Hcol | ].
    split; [now rewrite main_log_app, main_log_worker, app_nil_r | ].
    assert (Hone : total_reported md w [i] = sum_Z (updates (fst (run_task w i t)))).
    { unfold total_reported. cbn [map]. unfold bytes_reported.
      rewrite (task_trace_nth i t Hnth).
      unfold sum_Z at 1. cbn [fold_right]. lia. }
    rewrite sink_app, Hsink, sink_open, total_reported_app, Hone; [reflexivity | ].
    rewrite <- (task_trace_nth i t Hnth). apply task_trace_no_close.
  - destruct Hph as (ys & j & pn & e & Hy & Hys & Hfail & Hmain).
    exists ys, j, pn, e. cbn [yielded log].
    now rewrite main_log_app, main_log_worker, app_nil_r.
  - destruct Hph as [Hall _]. exfalso. apply Hnot, Hall.
    apply nth_error_Some. congruence.
Qed.

Lemma yield_inv (s : state) (i : nat) (t : Task) :
  Inv md token w s ->
  st_phase s = Collecting ->
  nth_error (tasks md w) i = Some t ->
  mem i (finished s) = true ->
  mem i (yielded s) = false ->
  Inv md token w
    match snd (run_task w i t) with
    | Return part_info =>
        mkState (finished s) (yielded s ++ [i]) (parts s ++ [part_info]) (log s)
                Collecting (file_id s)
    | Raise e =>
        mkState (finished s) (yielded s ++ [i]) (parts s)
                (log s ++ tagged Main (on_part_failure md token w (task_part_number t) e))
                Draining (file_id s)
    end.
Proof.
  intros (Hfd & Hflt & Hyd & Hyf & Hwl & Hph) Hcol Hnth Hfin Hyet.
  rewrite Hcol in Hph. destruct Hph as (Hps & Hmain & Hsink).
  apply mem_In in Hfin. apply mem_not_In in Hyet.
  assert (Hincl : incl (yielded s ++ [i]) (finished s)).
  { apply incl_app; [exact Hyf | ]. intros j [<- | []]. exact Hfin. }
  destruct (snd (run_task w i t)) as [pr | e] eqn:Hres;
    unfold Inv; cbn [finished yielded parts log st_phase file_id];
    (split; [exact Hfd | ]); (split; [exact Hflt | ]);
    (split; [now apply NoDup_snoc | ]); (split; [exact Hincl | ]).
  - split; [exact Hwl | ].
    split; [ | now split].
    apply Forall2_app; [exact Hps | ].
    constructor; [ | constructor]. now exists t.
  - split.
    { intros j. now rewrite worker_log_app, worker_log_main, app_nil_r. }
    exists (yielded s), i, (task_part_number t), e. cbn [yielded log].
    split; [reflexivity | ].
    split; [exact (Forall2_left _ _ _ Hps) | ].
    split; [now exists t | ].
    now rewrite main_log_app, main_log_main, Hmain.
Qed.

Lemma finalize_inv (s : state) :
  Inv md token w s ->
  st_phase s = Collecting ->
  List.length (yielded s) = List.length (tasks md w) ->
  Inv md token w (finalize md token w s).
Proof.
  intros (Hfd & Hflt & Hyd & Hyf & Hwl & Hph) Hcol Hlen.
  rewrite Hcol in Hph. destruct Hph as (Hps & Hmain & Hsink).
  assert (Hperm : Permutation (yielded s) (seq 0 (List.length (tasks md w)))).
  { apply full_permutation; auto. }
  assert (Hall : forall i, (i < List.length (tasks md w))%nat -> In i (finished s)).
  { intros i Hi. apply Hyf. apply (Permutation_in i (Permutation_sym Hperm)).
    apply in_seq. lia. }
  assert (Hfperm : Permutation (finished s) (seq 0 (List.length (tasks md w)))).
  { apply NoDup_Permutation; [exact Hfd | apply seq_NoDup | ].
    intros i. rewrite in_seq. split; [intros Hi; specialize (Hflt i Hi); lia | ].
    intros Hi. apply Hall. lia. }
  assert (Hbar : forall evs,
             ProgressTracker.n (sink (log s ++ tagged Main (EvClose :: evs)))
             = total_reported md w (seq 0 (List.length (tasks md w)))).
  { intros evs. rewrite sink_app, Hsink. cbn [tagged map fold_left].
    unfold sink_step at 2. cbn [snd]. unfold ProgressTracker.complete.
    cbn [ProgressTracker.n]. rewrite sink_closed. cbn [ProgressTracker.n].
    now apply total_reported_perm. }
  unfold finalize, complete_multipart_upload.
  destruct (post (complete_post w)) as [fid | e] eqn:Hpost;
    unfold Inv; cbn [finished yielded parts log st_phase file_id];
    (split; [exact Hfd | ]); (split; [exact Hflt | ]);
    (split; [exact Hyd | ]); (split; [exact Hyf | ]);
    (split; [intros j; now rewrite worker_log_app, worker_log_main, app_nil_r | ]);
    (split; [exact Hall | ]); right; exists (parts s);
    cbn [yielded parts log file_id];
    (split; [exact Hperm | ]); (split; [exact Hps | ]); (split; [reflexivity | ]).
  - split.
    { rewrite main_log_app, main_log_main, Hmain. unfold after_collecting.
      now rewrite Hpost. }
    split; [apply Hbar | ]. now rewrite Hpost.
  - split.
    { rewrite main_log_app, main_log_main, Hmain. unfold after_collecting.
      now rewrite Hpost. }
    split; [apply Hbar | ]. now rewrite Hpost.
Qed.

Lemma step_inv (l : label) (s s' : state) :
  Inv md token w s -> step md token w l s = Some s' -> Inv md token w s'.
Proof.
  intros Hinv Hstep. destruct l as [i | i | ]; cbn [step] in Hstep.
  - destruct (nth_error (tasks md w) i) as [t | ] eqn:Hnth; [ | discriminate].
    destruct (mem i (finished s)) eqn:Hmem; [discriminate | ].
    injection Hstep as <-. now apply work_inv.
  - destruct (st_phase s) eqn:Hph; try discriminate.
    destruct (nth_error (tasks md w) i) as [t | ] eqn:Hnth; [ | discriminate].
    destruct (mem i (finished s)) eqn:Hfin; [ | discriminate].
    destruct (mem i (yielded s)) eqn:Hyet; [discriminate | ].
    cbn [andb negb] in Hstep.
    pose proof (yield_inv s i t Hinv Hph Hnth Hfin Hyet) as Hnew.
    destruct (snd (run_task w i t)); injection Hstep as <-; exact Hnew.
  - destruct (st_phase s) eqn:Hph; try discriminate.
    + destruct (List.length (yielded s) =? List.length (tasks md w))%nat eqn:Hlen;
        [ | discriminate].
      injection Hstep as <-. apply Nat.eqb_eq in Hlen. now apply finalize_inv.
    + destruct (all_finished md w s) eqn:Hall; [ | discriminate].
      injection Hstep as <-.
      destruct Hinv as (Hfd & Hflt & Hyd & Hyf & Hwl & Hdec).
      rewrite Hph in Hdec.
      unfold Inv. cbn [finished yielded parts log st_phase file_id].
      repeat (split; [assumption | ]).
      split; [now apply all_finished_spec | ].
      left. split; [reflexivity | ].
      destruct Hdec as (ys & j & pn & e & H). now exists ys, j, pn, e.
Qed.

Lemma run_inv (sched : list label) (s : state) :
  Inv md token w s -> Inv md token w (run md token w sched s).
Proof.
  revert s. induction sched as [ | l sched IH]; intros s Hinv; cbn [run]; [exact Hinv | ].
  destruct (step md token w l s) as [s' | ] eqn:Hstep; apply IH; [ | exact Hinv].
  eapply step_inv; eassumption.
Qed.

Lemma upload_inv (sched : list label) : Inv md token w (_multipart_upload md token w sched).
Proof. apply run_inv, init_inv. Qed.

End Invariant.

(** ** What only the main thread does *)

Lemma in_worker_log (i : nat) (e : event) (l : list (thread * event)) :
  In (Worker i, e) l -> In e (worker_log i l).
Proof.
  intros Hin. unfold worker_log.
  apply (in_map snd _ (Worker i, e)), filter_In. split; [exact Hin | ].
  unfold is_worker. cbn. apply Nat.eqb_refl.
Qed.

Lemma in_main_log (e : event) (l : list (thread * event)) :
  In e (main_log l) -> In (Main, e) l.
Proof.
  unfold main_log. rewrite in_map_iff. intros ([t e'] & Heq & Hin).
  apply filter_In in Hin. destruct Hin as [Hin Hmain]. cbn in Heq. subst e'.
  destruct t; [exact Hin | discriminate].
Qed.

Lemma worker_events (md : Metadata) (token : option string) (w : World) (s : state)
    (i : nat) (e : event) :
  Inv md token w s -> In (Worker i, e) (log s) ->
  is_close e = false /\ is_abort e = false /\ is_complete e = false.
Proof.
  intros (_ & _ & _ & _ & Hwl & _) Hin.
  apply in_worker_log in Hin. rewrite Hwl in Hin.
  destruct (mem i (finished s)); [ | contradiction].
  pose proof (task_trace_events md w i) as Hall.
  rewrite Forall_forall in Hall. now apply Hall.
Qed.

(** Calls that no worker makes are found in the main thread's log. *)
Lemma calls_of_main {A : Type} (f : event -> list A) (l : list (thread * event)) :
  (forall i e, In (Worker i, e) l -> f e = []) ->
  flat_map f (map snd l) = flat_map f (main_log l).
Proof.
  unfold main_log. induction l as [ | [t e] l IH]; intros Hw; [reflexivity | ].
  cbn [map flat_map filter snd]. rewrite IH by (intros i e' Hi; apply (Hw i); now right).
  destruct t as [ | i]; cbn [is_main fst map flat_map snd]; [reflexivity | ].
  rewrite (Hw i e) by now left. reflexivity.
Qed.

Lemma abort_calls_main (md : Metadata) (token : option string) (w : World) (s : state) :
  Inv md token w s -> abort_calls (log s) = flat_map abort_of (main_log (log s)).
Proof.
  intros Hinv. apply calls_of_main. intros i e Hin.
  destruct (worker_events md token w s i e Hinv Hin) as (_ & Ha & _).
  destruct e; try reflexivity; discriminate.
Qed.

Lemma complete_calls_main (md : Metadata) (token : option string) (w : World) (s : state) :
  Inv md token w s -> complete_calls (log s) = flat_map complete_of (main_log (log s)).
Proof.
  intros Hinv. apply calls_of_main. intros i e Hin.
  destruct (worker_events md token w s i e Hinv Hin) as (_ & _ & Hc).
  destruct e; try reflexivity; discriminate.
Qed.

Lemma abort_once (o : post_outcome) (ct : string) (token : option string) :
  flat_map abort_of (abort_multipart_upload o ct token) = [ct] /\
  flat_map complete_of (abort_multipart_upload o ct token) = [].
Proof. unfold abort_multipart_upload. now destruct (post o). Qed.

Lemma succeeded_failed_excl (md : Metadata) (w : World) (i : nat) (pr : PartResult)
    (pn : Z) (e : exn) :
  succeeded md w i pr -> failed md w i pn e -> False.
Proof. intros (t & Ht & Hr) (t' & Ht' & _ & Hr'). congruence. Qed.

Lemma failed_lt (md : Metadata) (w : World) (i : nat) (pn : Z) (e : exn) :
  failed md w i pn e -> (i < List.length (tasks md w))%nat.
Proof. intros (t & Ht & _). apply nth_error_Some. congruence. Qed.

(** When a part fails, the run cannot have reached the completion call. *)
Lemma finalized_all_succeed (md : Metadata) (w : World) (token : option string)
    (s : state) (ret : bool) :
  finalized md token w s ret -> all_parts_succeed md w.
Proof.
  intros (ps & Hperm & Hps & _) i Hi.
  assert (Hin : In i (yielded s)).
  { apply (Permutation_in i (Permutation_sym Hperm)), in_seq. lia. }
  pose proof (Forall2_left _ _ _ Hps) as Hall. rewrite Forall_forall in Hall. auto.
Qed.

Lemma decided_not_all (md : Metadata) (w : World) (token : option string) (s : state) :
  decided md token w s -> all_parts_succeed md w -> False.
Proof.
  intros (ys & i & pn & e & _ & _ & Hfail & _) Hall.
  destruct (Hall i (failed_lt _ _ _ _ _ Hfail)) as [pr Hpr].
  eapply succeeded_failed_excl; eassumption.
Qed.

(** ** The orchestrator *)

(** Every part of a three-part example succeeds: by evaluation. *)
Ltac three_parts_succeed :=
  let i := fresh "i" in
  let Hi := fresh "Hi" in
  intros i Hi; cbn in Hi;
  destruct i as [ | [ | [ | i]]]; [ | | | lia];
  eexists; eexists; (split; reflexivity).

(** The shape of a run that returns although a part has failed. *)
Lemma first_failure_shape
    (md : Metadata) (token : option string) (w : World) (sched : list label)
    (i0 : nat) (pn0 : Z) (e0 : exn) (ret : bool) :
  failed md w i0 pn0 e0 ->
  st_phase (_multipart_upload md token w sched) = Done ret ->
  exists ys i pn e,
    ret = false /\
    yielded (_multipart_upload md token w sched) = ys ++ [i] /\
    Forall (fun j => exists pr, succeeded md w j pr) ys /\
    failed md w i pn e /\
    main_log (log (_multipart_upload md token w sched))
    = starting md w :: EvPrint (MsgPartFailed pn e) :: EvClose ::
      abort_multipart_upload (abort_post w) (completion_token md) token.
Proof.
  intros Hfail Hdone.
  pose proof (upload_inv md token w sched) as Hinv.
  destruct Hinv as (_ & _ & _ & _ & _ & Hph). rewrite Hdone in Hph.
  destruct Hph as [_ [[-> Hdec] | Hfin]].
  - destruct Hdec as (ys & i & pn & e & Hy & Hys & Hf & Hmain).
    now exists ys, i, pn, e.
  - exfalso. apply finalized_all_succeed in Hfin.
    destruct (Hfin i0 (failed_lt _ _ _ _ _ Hfail)) as [pr Hpr].
    eapply succeeded_failed_excl; eassumption.
Qed.

(** C1. If the transfer of some part fails for good, every run that returns
    returns [False]; the futures yielded before the first failed one had all
    succeeded; the main thread printed the failure with the number of that
    part, closed the progress bar and called the abort collaborator; the abort
    collaborator was called exactly once in the whole run, and the completion
    collaborator never, so no collected [PartResult] leaves the function. *)
Theorem first_failure_decides
    (md : Metadata) (token : option string) (w : World) (sched : list label)
    (i0 : nat) (pn0 : Z) (e0 : exn) (ret : bool) :
  failed md w i0 pn0 e0 ->
  st_phase (_multipart_upload md token w sched) = Done ret ->
  let s := _multipart_upload md token w sched in
  ret = false /\
  (exists ys i pn e,
      yielded s = ys ++ [i] /\
      Forall (fun j => exists pr, succeeded md w j pr) ys /\
      failed md w i pn e /\
      main_log (log s)
      = starting md w :: EvPrint (MsgPartFailed pn e) :: EvClose ::
        abort_multipart_upload (abort_post w) (completion_token md) token) /\
  abort_calls (log s) = [completion_token md] /\
  complete_calls (log s) = [].
Proof.
  intros Hfail Hdone s. subst s.
  pose proof (upload_inv md token w sched) as Hinv.
  pose proof (abort_calls_main md token w _ Hinv) as Hab.
  pose proof (complete_calls_main md token w _ Hinv) as Hco.
  destruct Hinv as (_ & _ & _ & _ & _ & Hph). rewrite Hdone in Hph.
  destruct Hph as [_ [[-> Hdec] | Hfin]].
  - split; [reflexivity | ].
    destruct Hdec as (ys & i & pn & e & Hy & Hys & Hf & Hmain).
    split; [now exists ys, i, pn, e | ].
    rewrite Hab, Hco, Hmain. unfold on_part_failure.
    destruct (abort_once (abort_post w) (completion_token md) token) as [Ha Hc].
    cbn [flat_map starting abort_of complete_of app]. now rewrite Ha, Hc.
  - exfalso. apply finalized_all_succeed in Hfin.
    destruct (Hfin i0 (failed_lt _ _ _ _ _ Hfail)) as [pr Hpr].
    eapply succeeded_failed_excl; eassumption.
Qed.

Lemma first_failure_decides_witness :
  let s := _multipart_upload md3 (Some "t"%string) w_part2_fails sched_fail_first in
  false = false /\
  (exists ys i pn e,
      yielded s = ys ++ [i] /\
      Forall (fun j => exists pr, succeeded md3 w_part2_fails j pr) ys /\
      failed md3 w_part2_fails i pn e /\
      main_log (log s)
      = starting md3 w_part2_fails :: EvPrint (MsgPartFailed pn e) :: EvClose ::
        abort_multipart_upload (abort_post w_part2_fails) (completion_token md3)
                               (Some "t"%string)) /\
  abort_calls (log s) = [completion_token md3] /\
  complete_calls (log s) = [].
Proof.
  apply (first_failure_decides md3 (Some "t"%string) w_part2_fails sched_fail_first
           1%nat 2 (HTTPError 403) false).
  - eexists. split; [reflexivity | split; reflexivity].
  - reflexivity.
Defined.

(** [run_task] is [_upload_part]: the branch for a call without result is
    never taken. *)
Lemma run_task_spec (w : World) (i : nat) (t : Task) :
  _upload_part (task_url t) (task_part_number t) (task_start t) (task_end t) (storage w i)
  = (fst (run_task w i t), Some (snd (run_task w i t))).
Proof.
  unfold run_task.
  destruct (upload_part_total (task_url t) (task_part_number t) (task_start t)
              (task_end t) (storage w i)) as [r Hr].
  destruct (_upload_part _ _ _ _ _) as [tr res]. cbn [fst snd] in *. now subst res.
Qed.

Lemma run_task_returns (w : World) (i : nat) (t : Task) (pr : PartResult) :
  snd (run_task w i t) = Return pr ->
  part_number pr = task_part_number t /\
  sum_Z (updates (fst (run_task w i t))) = task_end t - task_start t.
Proof.
  unfold run_task.
  pose proof (upload_part_updates (task_url t) (task_part_number t) (task_start t)
                (task_end t) (storage w i)) as Hup.
  destruct (_upload_part _ _ _ _ _) as [tr [[pr' | e] | ]]; cbn [fst snd] in *;
    try discriminate.
  intros [= ->]. destruct Hup as (Hpn & _ & _ & _ & ->).
  split; [exact Hpn | ]. unfold sum_Z. cbn. lia.
Qed.

Lemma results_in_order (pre ts : list Task) (rs : list PartResult) :
  Forall2 (fun i pr => exists t, nth_error (pre ++ ts) i = Some t /\
                                 part_number pr = task_part_number t)
          (seq (List.length pre) (List.length ts)) rs ->
  map part_number rs = map task_part_number ts.
Proof.
  revert pre rs. induction ts as [ | t ts IH]; intros pre rs Hall; cbn in Hall.
  - now inversion Hall.
  - inversion Hall as [ | i pr idx rs' (t' & Hnth & Hpn) Hrest]; subst. cbn [map].
    rewrite nth_error_app2, Nat.sub_diag in Hnth by lia. injection Hnth as <-.
    f_equal; [exact Hpn | ].
    apply (IH (pre ++ [t])).
    rewrite length_app, Nat.add_1_r, <- app_assoc. exact Hrest.
Qed.

Lemma results_part_numbers (md : Metadata) (w : World) (rs : list PartResult) :
  Forall2 (succeeded md w) (seq 0 (List.length (tasks md w))) rs ->
  map part_number rs = map info_part_number (part_urls md).
Proof.
  intros Hall.
  transitivity (map task_part_number (tasks md w)).
  - apply (results_in_order [] (tasks md w)). cbn [List.length app].
    eapply Forall2_impl; [ | exact Hall].
    intros i pr (t & Hnth & Hres). exists t. split; [exact Hnth | ].
    now apply run_task_returns in Hres.
  - unfold tasks, submitted. rewrite map_map. reflexivity.
Qed.

(** C3. When every part succeeds, every run that returns has called the
    completion collaborator exactly once; the list it was given is ascending
    by part number and is a permutation of the results of the futures, one per
    submitted part, whatever the order in which the futures were yielded. *)
Theorem completion_receives_sorted_parts
    (md : Metadata) (token : option string) (w : World) (sched : list label)
    (ret : bool) :
  all_parts_succeed md w ->
  st_phase (_multipart_upload md token w sched) = Done ret ->
  let s := _multipart_upload md token w sched in
  exists ps rs,
    complete_calls (log s) = [ps] /\
    ascending ps /\
    Forall2 (succeeded md w) (seq 0 (List.length (tasks md w))) rs /\
    Permutation ps rs /\
    Permutation (map part_number ps) (map info_part_number (part_urls md)).
Proof.
  intros Hall Hdone s. subst s.
  pose proof (upload_inv md token w sched) as Hinv.
  pose proof (complete_calls_main md token w _ Hinv) as Hco.
  destruct Hinv as (_ & _ & _ & _ & _ & Hph). rewrite Hdone in Hph.
  destruct Hph as [_ [[_ Hdec] | Hfin]].
  - exfalso. eapply decided_not_all; eassumption.
  - destruct Hfin as (ps0 & Hperm & Hps & _ & Hmain & _).
    destruct (Permutation_Forall2 Hperm Hps) as (rs & Hprs & Hrs).
    exists (sort_parts ps0), rs.
    assert (Hsorted : Permutation (sort_parts ps0) rs).
    { rewrite sort_parts_perm. exact Hprs. }
    split; [ | split; [apply sort_parts_ascending | split; [exact Hrs | split]]].
    + rewrite Hco, Hmain. unfold after_collecting, on_upload_failure.
      destruct (post (complete_post w)); [reflexivity | ].
      destruct (abort_once (abort_post w) (completion_token md) None) as [_ Hc].
      cbn [flat_map starting complete_of app]. now rewrite Hc.
    + exact Hsorted.
    + rewrite <- (results_part_numbers md w rs Hrs). now apply Permutation_map.
Qed.

Lemma completion_receives_sorted_parts_witness :
  let s := _multipart_upload md3 None w_all_ok sched_reverse in
  exists ps rs,
    complete_calls (log s) = [ps] /\
    ascending ps /\
    Forall2 (succeeded md3 w_all_ok) (seq 0 (List.length (tasks md3 w_all_ok))) rs /\
    Permutation ps rs /\
    Permutation (map part_number ps) (map info_part_number (part_urls md3)).
Proof.
  apply (completion_receives_sorted_parts md3 None w_all_ok sched_reverse true).
  - three_parts_succeed.
  - reflexivity.
Defined.

(** C5, as the claim states it, fails: with all three parts stored and a 500
    from the completion call the upload returns [False], the very value it
    returns when a part fails, and the abort collaborator is called. *)
Lemma completion_failure_counterexample :
  let s := _multipart_upload md3 None w_complete_fails (in_order md3 w_complete_fails) in
  all_parts_succeed md3 w_complete_fails /\
  post (complete_post w_complete_fails) = Raise (HTTPError 500) /\
  st_phase s = Done false /\
  st_phase s
  = st_phase (_multipart_upload md3 None w_part2_fails sched_fail_first) /\
  abort_calls (log s) <> [].
Proof.
  cbn zeta. split; [three_parts_succeed | repeat split; discriminate].
Qed.

(** C5, amended. When every part succeeds and the completion call fails,
    every run that returns returns [False]; the main thread has closed the
    progress bar, called the completion collaborator, and then, in the outer
    handler, closed the bar again, printed ['Multipart upload failed'] with
    the [RuntimeError] of the completion call -- not the ['Part N failed'] of
    a part failure -- and called the abort collaborator, exactly once in the
    run. *)
Theorem completion_failure_reported
    (md : Metadata) (token : option string) (w : World) (sched : list label)
    (e : exn) (ret : bool) :
  all_parts_succeed md w ->
  post (complete_post w) = Raise e ->
  st_phase (_multipart_upload md token w sched) = Done ret ->
  let s := _multipart_upload md token w sched in
  ret = false /\
  (exists ps,
      main_log (log s)
      = starting md w :: EvClose :: EvPrint MsgAllPartsUploaded :: EvPrint MsgFinalizing ::
        EvComplete (completion_token md) ps token ::
        EvClose ::
        EvPrint (MsgUploadFailed (RuntimeError "Failed to complete multipart upload" e)) ::
        abort_multipart_upload (abort_post w) (completion_token md) None) /\
  abort_calls (log s) = [completion_token md].
Proof.
  intros Hall Hpost Hdone s. subst s.
  pose proof (upload_inv md token w sched) as Hinv.
  pose proof (abort_calls_main md token w _ Hinv) as Hab.
  destruct Hinv as (_ & _ & _ & _ & _ & Hph). rewrite Hdone in Hph.
  destruct Hph as [_ [[_ Hdec] | Hfin]].
  - exfalso. eapply decided_not_all; eassumption.
  - destruct Hfin as (ps0 & _ & _ & _ & Hmain & _ & Hret).
    unfold after_collecting, on_upload_failure in Hmain. rewrite Hpost in Hmain, Hret.
    split; [exact Hret | ].
    split; [now exists (sort_parts ps0) | ].
    rewrite Hab, Hmain.
    destruct (abort_once (abort_post w) (completion_token md) None) as [Ha _].
    cbn [flat_map starting abort_of app]. now rewrite Ha.
Qed.

Lemma completion_failure_reported_witness :
  let s := _multipart_upload md3 None w_complete_fails sched_reverse in
  false = false /\
  (exists ps,
      main_log (log s)
      = starting md3 w_complete_fails :: EvClose :: EvPrint MsgAllPartsUploaded ::
        EvPrint MsgFinalizing ::
        EvComplete (completion_token md3) ps None ::
        EvClose ::
        EvPrint (MsgUploadFailed
                   (RuntimeError "Failed to complete multipart upload" (HTTPError 500))) ::
        abort_multipart_upload (abort_post w_complete_fails) (completion_token md3) None) /\
  abort_calls (log s) = [completion_token md3].
Proof.
  apply (completion_failure_reported md3 None w_complete_fails sched_reverse
           (HTTPError 500) false).
  - three_parts_succeed.
  - reflexivity.
  - reflexivity.
Defined.

(** Every call starts with the events of its first attempt. *)
Lemma upload_part_first_attempt
    (part_url : string) (part_no start end_ : Z) (storage : Z -> attempt_outcome) :
  exists rest,
    fst (_upload_part part_url part_no start end_ storage)
    = fst (attempt_body part_url part_no start end_ (storage 0)) ++ rest.
Proof.
  unfold _upload_part. change (range MAX_RETRIES) with [0; 1; 2; 3; 4].
  destruct (transient (storage 0)) eqn:Ht.
  - rewrite loop_retry by (auto; unfold MAX_RETRIES; lia). cbn [fst].
    destruct (attempt_cases part_url part_no start end_ (storage 0))
      as [e _ _ _ Hb | r Hn | m Hn]; try congruence.
    rewrite Hb. cbn [fst]. eauto.
  - rewrite loop_stop by exact Ht. cbn [fst]. exists []. now rewrite app_nil_r.
Qed.

Lemma run_task_first_attempt (w : World) (i : nat) (t : Task) :
  (1 <= attempts_made (fst (run_task w i t)))%nat /\
  ((forall m, storage w i 0 <> ReadRaises m) ->
   In (EvPut (task_url t) (task_end t - task_start t)) (fst (run_task w i t))).
Proof.
  unfold run_task.
  destruct (upload_part_first_attempt (task_url t) (task_part_number t) (task_start t)
              (task_end t) (storage w i)) as [rest Hfirst].
  destruct (_upload_part _ _ _ _ _) as [tr r]. cbn [fst] in *. subst tr.
  unfold attempts_made. rewrite filter_app, length_app.
  destruct (attempt_cases (task_url t) (task_part_number t) (task_start t) (task_end t)
              (storage w i 0)) as [e _ _ _ Hb | r' _ _ _ Hb | m _ _ Hm Hb];
    rewrite Hb; cbn [fst filter is_read List.length]; (split; [lia | ]); intros Hread.
  - apply in_or_app. left. right. left. reflexivity.
  - apply in_or_app. left. right. left. reflexivity.
  - now destruct (Hread m).
Qed.

(** C6, as the claim states it, fails: with two part URLs for a file that needs
    three parts both parts are uploaded and the upload returns [True]; with a
    chunk size of zero the one part is sent with an empty body. *)
Lemma no_invalid_plan_counterexample :
  Z.of_nat (List.length (part_urls md_short)) <> ceil_div 25 (chunk_size md_short) /\
  (let s := _multipart_upload md_short None w_all_ok (in_order md_short w_all_ok) in
   st_phase s = Done true /\ put_requests (log s) = 2%nat) /\
  chunk_size md_zero <= 0 /\
  (let s := _multipart_upload md_zero None w_all_ok (in_order md_zero w_all_ok) in
   st_phase s = Done true /\ In (Worker 0, EvPut "url1" 0) (log s)).
Proof.
  cbn zeta. split; [discriminate | ].
  split; [split; reflexivity | ].
  split; [discriminate | ].
  split; [reflexivity | ].
  right. right. left. reflexivity.
Qed.

(** C6, amended. The descriptor is not validated.  Whatever the chunk size,
    the file size and the number of part URLs, one task is submitted per part
    URL, with [start = (part_number - 1) * chunk_size] and
    [end = min(start + chunk_size, file_size)]; in every run that returns each
    of them has been run to its end, which takes at least one attempt and,
    unless the file cannot be read, a PUT to the part's URL; and the upload
    returns [True] as soon as all parts and the completion call succeed. *)
Theorem no_plan_validation
    (md : Metadata) (token : option string) (w : World) (sched : list label)
    (ret : bool) :
  st_phase (_multipart_upload md token w sched) = Done ret ->
  let s := _multipart_upload md token w sched in
  List.length (tasks md w) = List.length (part_urls md) /\
  (forall i part_info,
      nth_error (part_urls md) i = Some part_info ->
      let start := (info_part_number part_info - 1) * chunk_size md in
      let end_ := Z.min (start + chunk_size md) (file_size w) in
      let t := mkTask (info_url part_info) (info_part_number part_info) start end_ in
      nth_error (tasks md w) i = Some t /\
      worker_log i (log s) = fst (run_task w i t) /\
      (1 <= attempts_made (worker_log i (log s)))%nat /\
      ((forall m, storage w i 0 <> ReadRaises m) ->
       In (EvPut (info_url part_info) (end_ - start)) (worker_log i (log s)))) /\
  (all_parts_succeed md w ->
   forall fid, post (complete_post w) = Return fid -> ret = true).
Proof.
  intros Hdone s. subst s.
  pose proof (upload_inv md token w sched) as Hinv.
  destruct Hinv as (_ & _ & _ & _ & Hwl & Hph). rewrite Hdone in Hph.
  destruct Hph as [Hall Hend].
  split; [apply submitted_length | ].
  split.
  - intros i part_info Hinfo start end_ t.
    assert (Hnth : nth_error (tasks md w) i = Some t).
    { unfold tasks. rewrite submitted_nth, Hinfo. reflexivity. }
    assert (Hi : (i < List.length (tasks md w))%nat)
      by (apply nth_error_Some; congruence).
    split; [exact Hnth | ].
    rewrite Hwl. apply Hall, mem_In in Hi. rewrite Hi.
    rewrite (task_trace_nth md w i t Hnth).
    split; [reflexivity | ]. apply (run_task_first_attempt w i t).
  - intros Hok fid Hpost.
    destruct Hend as [[_ Hdec] | Hfin].
    + exfalso. eapply decided_not_all; eassumption.
    + destruct Hfin as (ps & _ & _ & _ & _ & _ & Hret).
      rewrite Hpost in Hret. apply Hret.
Qed.

Lemma no_plan_validation_witness :
  let s := _multipart_upload md_short None w_all_ok (in_order md_short w_all_ok) in
  List.length (tasks md_short w_all_ok) = List.length (part_urls md_short) /\
  (forall i part_info,
      nth_error (part_urls md_short) i = Some part_info ->
      let start := (info_part_number part_info - 1) * chunk_size md_short in
      let end_ := Z.min (start + chunk_size md_short) (file_size w_all_ok) in
      let t := mkTask (info_url part_info) (info_part_number part_info) start end_ in
      nth_error (tasks md_short w_all_ok) i = Some t /\
      worker_log i (log s) = fst (run_task w_all_ok i t) /\
      (1 <= attempts_made (worker_log i (log s)))%nat /\
      ((forall m, storage w_all_ok i 0 <> ReadRaises m) ->
       In (EvPut (info_url part_info) (end_ - start)) (worker_log i (log s)))) /\
  (all_parts_succeed md_short w_all_ok ->
   forall fid, post (complete_post w_all_ok) = Return fid -> true = true).
Proof.
  apply (no_plan_validation md_short None w_all_ok (in_order md_short w_all_ok) true).
  reflexivity.
Defined.

Lemma sink_closed_after (l : list (thread * event)) (t : thread) :
  In (t, EvClose) l -> ProgressTracker.closed (sink l) = true.
Proof.
  intros Hin. apply in_split in Hin. destruct Hin as (l1 & l2 & ->).
  rewrite sink_app. cbn [fold_left]. unfold sink_step at 2. cbn [snd].
  unfold ProgressTracker.complete. now rewrite sink_closed.
Qed.

(** C7, as the claim states it, fails: when the failed part is yielded while
    the two other parts are still being uploaded, the main thread closes the
    progress bar at once, and both workers call [update] on it afterwards. *)
Lemma update_after_close_counterexample :
  let s := _multipart_upload md3 None w_part2_fails sched_fail_first in
  st_phase s = Done false /\
  ~ no_update_after_close (log s).
Proof.
  cbn zeta. split; [reflexivity | ].
  intros Hno.
  apply (Hno (firstn 19 (log (_multipart_upload md3 None w_part2_fails sched_fail_first)))
             (skipn 19 (log (_multipart_upload md3 None w_part2_fails sched_fail_first)))
             (Worker 0) 10).
  - now rewrite firstn_skipn.
  - vm_compute. do 18 right. now left.
  - vm_compute. do 4 right. now left.
Qed.

(** C7, amended. When a part fails for good, the main thread closes the
    progress bar as soon as it is handed the first failed future, before it
    calls the abort collaborator and before the pool is drained; it closes it
    once.  The function still returns only when every submitted task has run
    to its end, and the bar is closed then. *)
Theorem drain_before_return
    (md : Metadata) (token : option string) (w : World) (sched : list label)
    (i0 : nat) (pn0 : Z) (e0 : exn) (ret : bool) :
  failed md w i0 pn0 e0 ->
  st_phase (_multipart_upload md token w sched) = Done ret ->
  let s := _multipart_upload md token w sched in
  (forall i t, nth_error (tasks md w) i = Some t ->
     In i (finished s) /\ worker_log i (log s) = fst (run_task w i t)) /\
  (exists pn e,
     main_log (log s)
     = starting md w :: EvPrint (MsgPartFailed pn e) :: EvClose ::
       abort_multipart_upload (abort_post w) (completion_token md) token) /\
  List.length (filter is_close (main_log (log s))) = 1%nat /\
  ProgressTracker.closed (sink (log s)) = true.
Proof.
  intros Hfail Hdone s. subst s.
  destruct (first_failure_shape md token w sched i0 pn0 e0 ret Hfail Hdone)
    as (ys & i & pn & e & _ & _ & _ & _ & Hmain).
  pose proof (upload_inv md token w sched) as Hinv.
  destruct Hinv as (_ & _ & _ & _ & Hwl & Hph). rewrite Hdone in Hph.
  destruct Hph as [Hall _].
  split; [ | split; [now exists pn, e | split]].
  - intros j t Hnth.
    assert (Hj : In j (finished (_multipart_upload md token w sched))).
    { apply Hall, nth_error_Some. congruence. }
    split; [exact Hj | ].
    rewrite Hwl. apply mem_In in Hj. rewrite Hj. now apply task_trace_nth.
  - rewrite Hmain. unfold abort_multipart_upload.
    now destruct (post (abort_post w)).
  - apply sink_closed_after with Main, in_main_log. rewrite Hmain.
    right. right. now left.
Qed.

Lemma drain_before_return_witness :
  let s := _multipart_upload md3 None w_part2_fails sched_fail_first in
  (forall i t, nth_error (tasks md3 w_part2_fails) i = Some t ->
     In i (finished s) /\ worker_log i (log s) = fst (run_task w_part2_fails i t)) /\
  (exists pn e,
     main_log (log s)
     = starting md3 w_part2_fails :: EvPrint (MsgPartFailed pn e) :: EvClose ::
       abort_multipart_upload (abort_post w_part2_fails) (completion_token md3) None) /\
  List.length (filter is_close (main_log (log s))) = 1%nat /\
  ProgressTracker.closed (sink (log s)) = true.
Proof.
  apply (drain_before_return md3 None w_part2_fails sched_fail_first
           1%nat 2 (HTTPError 403) false).
  - eexists. split; [reflexivity | split; reflexivity].
  - reflexivity.
Defined.

(** ** Progress *)

Lemma bytes_reported_succeeded (md : Metadata) (w : World) (i : nat) (pr : PartResult)
    (t : Task) :
  nth_error (tasks md w) i = Some t -> succeeded md w i pr ->
  bytes_reported md w i = task_end t - task_start t.
Proof.
  intros Hnth (t' & Hnth' & Hres).
  assert (t' = t) as -> by congruence.
  unfold bytes_reported. rewrite (task_trace_nth md w i t Hnth).
  now apply run_task_returns in Hres.
Qed.

(** The parts of a well-formed descriptor add up to the file. *)
Lemma total_reported_prefix (md : Metadata) (w : World) (k : nat) :
  well_formed md (file_size w) -> all_parts_succeed md w ->
  (k <= List.length (tasks md w))%nat ->
  total_reported md w (seq 0 k) = Z.min (Z.of_nat k * chunk_size md) (file_size w).
Proof.
  intros Hwf Hall.
  assert (Hc : 0 < chunk_size md) by apply Hwf.
  assert (Hs : 0 <= file_size w) by apply Hwf.
  pose proof (ceil_div_bounds (file_size w) (chunk_size md) Hc) as Hceil.
  induction k as [ | k IH]; intros Hk.
  - cbn. lia.
  - rewrite seq_S, total_reported_app, IH by lia. cbn [Nat.add].
    destruct (nth_error (tasks md w) k) as [t | ] eqn:Hnth;
      [ | apply nth_error_None in Hnth; lia].
    destruct (Hall k ltac:(lia)) as [pr Hpr].
    unfold total_reported. cbn [map]. unfold sum_Z at 1. cbn [fold_right].
    rewrite (bytes_reported_succeeded md w k pr t Hnth Hpr).
    destruct (well_formed_nth md (file_size w) k t Hwf Hnth) as (Hlt & _ & Hst & Hen).
    nia.
Qed.

Lemma total_reported_file_size (md : Metadata) (w : World) :
  well_formed md (file_size w) -> all_parts_succeed md w ->
  total_reported md w (seq 0 (List.length (tasks md w))) = file_size w.
Proof.
  intros Hwf Hall. rewrite total_reported_prefix by auto.
  pose proof (well_formed_length md (file_size w) Hwf) as Hlen.
  assert (Hc : 0 < chunk_size md) by apply Hwf.
  pose proof (ceil_div_bounds (file_size w) (chunk_size md) Hc) as Hceil.
  unfold tasks. rewrite submitted_length. nia.
Qed.

(** C8, as the claim states it, fails: nothing makes the part URLs cover the
    file.  With two part URLs for a file of 25 bytes in chunks of 10, both
    parts succeed, the upload returns [True], and the progress bar ends at 20
    bytes, not at the file size. *)
Lemma progress_short_of_file_size_counterexample :
  let s := _multipart_upload md_short None w_all_ok (in_order md_short w_all_ok) in
  all_parts_succeed md_short w_all_ok /\
  st_phase s = Done true /\
  ProgressTracker.n (sink (log s)) = 20 /\
  ProgressTracker.n (sink (log s)) <> file_size w_all_ok.
Proof.
  cbn zeta. split; [ | repeat split; discriminate].
  intros i Hi. cbn in Hi.
  destruct i as [ | [ | i]]; [ | | lia]; eexists; eexists; (split; reflexivity).
Qed.

(** C8, amended. A call of [_upload_part] that returns has updated the
    progress bar exactly once, with [end - start], as the last event of the
    attempt that succeeded; a call that raises has not updated it at all.
    Hence, for a well-formed descriptor (a chunk size above zero and the part
    numbers [1 .. ceil(file_size / chunk_size)]) whose parts all succeed, the
    counter of the progress bar is the file size in every run that returns. *)
Theorem progress_reported_once :
  (forall (part_url : string) (part_no start end_ : Z) (storage : Z -> attempt_outcome),
      let call := _upload_part part_url part_no start end_ storage in
      (forall pr, snd call = Some (Return pr) ->
         updates (fst call) = [end_ - start] /\
         exists tr, fst call = tr ++ [EvRead start (end_ - start);
                                      EvPut part_url (end_ - start);
                                      EvUpdate (end_ - start)] /\
                    updates tr = []) /\
      (forall e, snd call = Some (Raise e) -> updates (fst call) = [])) /\
  (forall (md : Metadata) (token : option string) (w : World) (sched : list label)
          (ret : bool),
      well_formed md (file_size w) ->
      all_parts_succeed md w ->
      st_phase (_multipart_upload md token w sched) = Done ret ->
      ProgressTracker.n (sink (log (_multipart_upload md token w sched))) = file_size w).
Proof.
  split.
  - intros part_url part_no start end_ storage call. subst call.
    pose proof (upload_part_updates part_url part_no start end_ storage) as Hup.
    split.
    + intros pr Hres. rewrite Hres in Hup.
      destruct Hup as (_ & tr & Htr & Hnone & Hone). split; [exact Hone | ].
      now exists tr.
    + intros e Hres. now rewrite Hres in Hup.
  - intros md token w sched ret Hwf Hall Hdone.
    pose proof (upload_inv md token w sched) as Hinv.
    destruct Hinv as (_ & _ & _ & _ & _ & Hph). rewrite Hdone in Hph.
    destruct Hph as [_ [[_ Hdec] | Hfin]].
    + exfalso. eapply decided_not_all; eassumption.
    + destruct Hfin as (ps & _ & _ & _ & _ & Hbar & _).
      rewrite Hbar. now apply total_reported_file_size.
Qed.

Lemma progress_reported_once_witness :
  ProgressTracker.n (sink (log (_multipart_upload md3 None w_all_ok sched_reverse)))
  = file_size w_all_ok.
Proof.
  apply (proj2 progress_reported_once md3 None w_all_ok sched_reverse true).
  - split; [simpl; lia | split; [reflexivity | reflexivity]].
  - three_parts_succeed.
  - reflexivity.
Defined.

(** ** A failing abort call *)

Lemma without_warnings_app (l1 l2 : list (thread * event)) :
  without_warnings (l1 ++ l2) = without_warnings l1 ++ without_warnings l2.
Proof. apply filter_app. Qed.

(** Workers print no abort warning. *)
Lemma loop_no_warning
    (part_url : string) (part_no start end_ : Z) (storage : Z -> attempt_outcome)
    (t : thread) (attempts : list Z) :
  without_warnings (tagged t (fst (retry_loop part_url part_no start end_ storage attempts)))
  = tagged t (fst (retry_loop part_url part_no start end_ storage attempts)).
Proof.
  induction attempts as [ | a rest IH]; [reflexivity | ].
  destruct (transient (storage a)) eqn:Ht.
  - destruct (Z_lt_le_dec a (MAX_RETRIES - 1)) as [Hlt | Hge].
    + rewrite (loop_retry part_url part_no start end_ storage a rest Ht Hlt). cbn [fst].
      unfold tagged in *. rewrite map_app, without_warnings_app. cbn [map].
      change (without_warnings (?x :: ?l)) with
        (if negb (is_abort_warning x) then x :: without_warnings l else without_warnings l).
      cbn [is_abort_warning snd negb]. now rewrite IH.
    + destruct (loop_give_up part_url part_no start end_ storage a rest Ht Hge)
        as (e & _ & _ & ->).
      now destruct e.
  - rewrite (loop_stop part_url part_no start end_ storage a rest Ht). cbn [fst].
    destruct (attempt_cases part_url part_no start end_ (storage a))
      as [e Hn | r _ _ _ Hb | m _ _ _ Hb]; try congruence; now rewrite Hb.
Qed.

Lemma run_task_no_warning (w : World) (i : nat) (t : Task) (th : thread) :
  without_warnings (tagged th (fst (run_task w i t))) = tagged th (fst (run_task w i t)).
Proof.
  unfold run_task.
  pose proof (loop_no_warning (task_url t) (task_part_number t) (task_start t)
                (task_end t) (storage w i) th (range MAX_RETRIES)) as Hno.
  unfold _upload_part. now destruct (retry_loop _ _ _ _ _ _).
Qed.

(** Without its warning, a failing abort call is a successful one. *)
Lemma abort_without_warning (o o' : post_outcome) (body : option string)
    (ct : string) (token : option string) :
  post o' = Return body ->
  without_warnings (tagged Main (abort_multipart_upload o ct token))
  = tagged Main (abort_multipart_upload o' ct token).
Proof.
  intros Hok. unfold abort_multipart_upload. rewrite Hok.
  now destruct (post o).
Qed.

Section AbortFails.

Variables (md : Metadata) (token : option string) (w : World).
Variables (o' : post_outcome) (body : option string).
Hypothesis abort_ok : post o' = Return body.

Lemma step_same_but_warnings (l : label) (s s' : state) :
  same_but_warnings s s' ->
  match step md token w l s, step md token (with_abort w o') l s' with
  | Some s1, Some s1' => same_but_warnings s1 s1'
  | None, None => True
  | _, _ => False
  end.
Proof.
  intros (Hf & Hy & Hp & Hph & Hid & Hlog).
  destruct s as [fin yld ps lg ph fid], s' as [fin' yld' ps' lg' ph' fid'].
  cbn [finished yielded parts st_phase file_id log] in *. subst fin' yld' ps' ph' fid' lg'.
  change (tasks md (with_abort w o')) with (tasks md w).
  destruct l as [i | i | ]; cbn [step finished yielded parts st_phase file_id log].
  - change (tasks md (with_abort w o')) with (tasks md w).
    destruct (nth_error (tasks md w) i) as [t | ]; [ | exact I].
    destruct (mem i fin); [exact I | ].
    change (run_task (with_abort w o') i t) with (run_task w i t).
    unfold same_but_warnings. cbn [finished yielded parts st_phase file_id log].
    now rewrite without_warnings_app, run_task_no_warning.
  - change (tasks md (with_abort w o')) with (tasks md w).
    destruct ph; try exact I.
    destruct (nth_error (tasks md w) i) as [t | ]; [ | exact I].
    destruct (mem i fin && negb (mem i yld)); [ | exact I].
    change (run_task (with_abort w o') i t) with (run_task w i t).
    destruct (snd (run_task w i t)) as [pr | e];
      unfold same_but_warnings; cbn [finished yielded parts st_phase file_id log];
      repeat (split; [reflexivity | ]); [reflexivity | ].
    rewrite without_warnings_app. f_equal. unfold on_part_failure.
    change (tagged Main (?a :: ?b :: ?l)) with ((Main, a) :: (Main, b) :: tagged Main l).
    cbn [abort_post with_abort completion_token].
    rewrite <- (abort_without_warning (abort_post w) o' body) by exact abort_ok.
    reflexivity.
  - destruct ph; try exact I.
    + change (tasks md (with_abort w o')) with (tasks md w).
      destruct (List.length yld =? List.length (tasks md w))%nat; [ | exact I].
      unfold finalize, complete_multipart_upload.
      cbn [finished yielded parts st_phase file_id log complete_post with_abort].
      destruct (post (complete_post w)) as [fid' | e];
        unfold same_but_warnings; cbn [finished yielded parts st_phase file_id log];
        repeat (split; [reflexivity | ]); rewrite without_warnings_app; f_equal.
      unfold on_upload_failure. cbn [abort_post with_abort app].
      change (tagged Main (?a :: ?b :: ?c :: ?d :: ?e :: ?f :: ?l))
        with ((Main, a) :: (Main, b) :: (Main, c) :: (Main, d) :: (Main, e) ::
              (Main, f) :: tagged Main l).
      rewrite <- (abort_without_warning (abort_post w) o' body) by exact abort_ok.
      reflexivity.
    + change (all_finished md (with_abort w o') ?s) with (all_finished md w s).
      unfold all_finished. cbn [finished].
      destruct (forallb _ _); [ | exact I].
      unfold same_but_warnings. cbn [finished yielded parts st_phase file_id log].
      repeat (split; [reflexivity | ]). reflexivity.
Qed.

Lemma run_same_but_warnings (sched : list label) (s s' : state) :
  same_but_warnings s s' ->
  same_but_warnings (run md token w sched s) (run md token (with_abort w o') sched s').
Proof.
  revert s s'. induction sched as [ | l sched IH]; intros s s' Hsame; [exact Hsame | ].
  cbn [run]. pose proof (step_same_but_warnings l s s' Hsame) as Hstep.
  destruct (step md token w l s), (step md token (with_abort w o') l s');
    try contradiction; now apply IH.
Qed.

Lemma upload_same_but_warnings (sched : list label) :
  same_but_warnings (_multipart_upload md token w sched)
                    (_multipart_upload md token (with_abort w o') sched).
Proof.
  apply run_same_but_warnings. unfold same_but_warnings, init.
  cbn [finished yielded parts st_phase file_id log]. repeat split.
Qed.

End AbortFails.

(** C9. In every run that returns [False] the abort collaborator is called
    exactly once.  If its request fails, the failure is printed as a warning
    right after the call and nothing is raised: the message of the original
    failure (the failed part, or the failed completion call) is in the log,
    and the run ends in the same state, with the same return value and -- the
    warning apart -- the same log as the run in which the abort request
    succeeds. *)
Theorem abort_failure_is_swallowed
    (md : Metadata) (token : option string) (w : World) (sched : list label)
    (e : exn) :
  post (abort_post w) = Raise e ->
  st_phase (_multipart_upload md token w sched) = Done false ->
  let s := _multipart_upload md token w sched in
  let s' := _multipart_upload md token (with_abort w (PostReturns 200 None)) sched in
  abort_calls (log s) = [completion_token md] /\
  (exists evs,
      main_log (log s)
      = evs ++ [EvAbort (completion_token md); EvPrint (MsgAbortWarning e)]) /\
  ((exists i pn e0,
       failed md w i pn e0 /\ In (EvPrint (MsgPartFailed pn e0)) (main_log (log s))) \/
   (exists e1,
       post (complete_post w) = Raise e1 /\
       In (EvPrint (MsgUploadFailed
                      (RuntimeError "Failed to complete multipart upload" e1)))
          (main_log (log s)))) /\
  st_phase s' = Done false /\
  log s' = without_warnings (log s).
Proof.
  intros Hab Hdone s s'. subst s s'.
  pose proof (upload_same_but_warnings md token w (PostReturns 200 None) None
                eq_refl sched) as (_ & _ & _ & Hph' & _ & Hlog').
  rewrite Hdone in Hph'.
  pose proof (upload_inv md token w sched) as Hinv.
  pose proof (abort_calls_main md token w _ Hinv) as Hcalls.
  destruct Hinv as (_ & _ & _ & _ & _ & Hph). rewrite Hdone in Hph.
  destruct Hph as [_ [[_ Hdec] | Hfin]].
  - destruct Hdec as (ys & i & pn & e0 & _ & _ & Hfail & Hmain).
    unfold on_part_failure, abort_multipart_upload in Hmain. rewrite Hab in Hmain.
    split; [now rewrite Hcalls, Hmain | ].
    split; [now exists [starting md w; EvPrint (MsgPartFailed pn e0); EvClose];
            rewrite Hmain | ].
    split; [ | now split].
    left. exists i, pn, e0. split; [exact Hfail | ]. rewrite Hmain. right. now left.
  - destruct Hfin as (ps & _ & _ & _ & Hmain & _ & Hret).
    unfold after_collecting, on_upload_failure, abort_multipart_upload in Hmain.
    destruct (post (complete_post w)) as [fid | e1]; [now destruct Hret | ].
    rewrite Hab in Hmain.
    split; [now rewrite Hcalls, Hmain | ].
    split.
    { exists [starting md w; EvClose; EvPrint MsgAllPartsUploaded; EvPrint MsgFinalizing;
              EvComplete (completion_token md) (sort_parts ps) token; EvClose;
              EvPrint (MsgUploadFailed
                         (RuntimeError "Failed to complete multipart upload" e1))].
      now rewrite Hmain. }
    split; [ | now split].
    right. exists e1. split; [reflexivity | ]. rewrite Hmain.
    do 6 right. now left.
Qed.

Lemma abort_failure_is_swallowed_witness :
  let s := _multipart_upload md3 None w_part2_fails sched_fail_first in
  let s' := _multipart_upload md3 None (with_abort w_part2_fails (PostReturns 200 None))
              sched_fail_first in
  abort_calls (log s) = [completion_token md3] /\
  (exists evs,
      main_log (log s)
      = evs ++ [EvAbort (completion_token md3);
                EvPrint (MsgAbortWarning (ConnectionError "unreachable"))]) /\
  ((exists i pn e0,
       failed md3 w_part2_fails i pn e0 /\
       In (EvPrint (MsgPartFailed pn e0)) (main_log (log s))) \/
   (exists e1,
       post (complete_post w_part2_fails) = Raise e1 /\
       In (EvPrint (MsgUploadFailed
                      (RuntimeError "Failed to complete multipart upload" e1)))
          (main_log (log s)))) /\
  st_phase s' = Done false /\
  log s' = without_warnings (log s).
Proof.
  apply (abort_failure_is_swallowed md3 None w_part2_fails sched_fail_first
           (ConnectionError "unreachable")).
  - reflexivity.
  - reflexivity.
Defined.

(** ** The upload returns *)

Section Returns.

Variables (md : Metadata) (token : option string) (w : World).

Lemma run_app (sched1 sched2 : list label) (s : state) :
  run md token w (sched1 ++ sched2) s = run md token w sched2 (run md token w sched1 s).
Proof.
  revert s. induction sched1 as [ | l sched1 IH]; intros s; [reflexivity | ].
  cbn [app run]. destruct (step md token w l s); apply IH.
Qed.

Lemma mem_seq (i j : nat) : mem i (seq 0 j) = (i <? j)%nat.
Proof.
  destruct (i <? j)%nat eqn:Hlt.
  - apply mem_In, in_seq. apply Nat.ltb_lt in Hlt. lia.
  - apply mem_not_In. rewrite in_seq. apply Nat.ltb_ge in Hlt. lia.
Qed.

Lemma all_work_done (k : nat) :
  (k <= List.length (tasks md w))%nat ->
  let s := run md token w (map Work (seq 0 k)) (init md w) in
  finished s = seq 0 k /\ yielded s = [] /\ st_phase s = Collecting.
Proof.
  induction k as [ | k IH]; intros Hk; [now cbn | ].
  rewrite seq_S, map_app, run_app. cbn [Nat.add map run].
  destruct (IH ltac:(lia)) as (Hf & Hy & Hph).
  set (s := run md token w (map Work (seq 0 k)) (init md w)) in *.
  cbn [step].
  destruct (nth_error (tasks md w) k) as [t | ] eqn:Hnth;
    [ | apply nth_error_None in Hnth; lia].
  rewrite Hf, mem_seq, Nat.ltb_irrefl.
  cbn [finished yielded st_phase]. now rewrite Hy, Hph.
Qed.

Lemma drained (l : list nat) (s : state) :
  st_phase s = Draining -> all_finished md w s = true ->
  st_phase (run md token w (map Yield l ++ [Exit]) s) = Done false.
Proof.
  intros Hph Hall. induction l as [ | i l IH]; cbn [map app run step].
  - now rewrite Hph, Hall.
  - rewrite Hph. exact IH.
Qed.

Lemma all_yielded (m : nat) : forall (j : nat) (s : state),
  (j + m = List.length (tasks md w))%nat ->
  finished s = seq 0 (List.length (tasks md w)) ->
  st_phase s = Collecting ->
  yielded s = seq 0 j ->
  exists ret, st_phase (run md token w (map Yield (seq j m) ++ [Exit]) s) = Done ret.
Proof.
  induction m as [ | m IH]; intros j s Hjm Hf Hph Hy.
  - cbn [seq map app run step]. rewrite Hph, Hy, length_seq.
    replace (j =? List.length (tasks md w))%nat with true
      by (symmetry; apply Nat.eqb_eq; lia).
    unfold finalize, complete_multipart_upload.
    destruct (post (complete_post w)); cbn [st_phase]; eauto.
  - cbn [seq map app run step]. rewrite Hph.
    destruct (nth_error (tasks md w) j) as [t | ] eqn:Hnth;
      [ | apply nth_error_None in Hnth; lia].
    rewrite Hf, Hy, !mem_seq, Nat.ltb_irrefl.
    replace (j <? List.length (tasks md w))%nat with true
      by (symmetry; apply Nat.ltb_lt; lia).
    cbn [andb negb].
    destruct (snd (run_task w j t)) as [pr | e].
    + apply IH; cbn [finished yielded st_phase]; auto; [lia | ].
      now rewrite seq_S.
    + exists false. apply drained; [reflexivity | ].
      apply all_finished_spec. cbn [finished]. intros i Hi.
      apply in_seq. lia.
Qed.

(** Under the in-order schedule the call returns, for every descriptor and
    every world. *)
Lemma upload_returns :
  exists ret, st_phase (_multipart_upload md token w (in_order md w)) = Done ret.
Proof.
  unfold _multipart_upload, in_order. rewrite run_app.
  destruct (all_work_done (List.length (tasks md w)) (Nat.le_refl _)) as (Hf & Hy & Hph).
  now apply all_yielded.
Qed.

End Returns.

Lemma byte_ranges_partition_witness :
  let ts := submitted md3 25 in
  Z.of_nat (List.length ts) = ceil_div 25 (chunk_size md3) /\
  (forall i t, nth_error ts i = Some t ->
     task_part_number t = Z.of_nat i + 1 /\
     task_start t = (task_part_number t - 1) * chunk_size md3 /\
     task_end t = Z.min (task_start t + chunk_size md3) 25 /\
     task_start t < task_end t) /\
  (forall t, nth_error ts 0 = Some t -> task_start t = 0) /\
  (forall i t t', nth_error ts i = Some t -> nth_error ts (S i) = Some t' ->
     task_end t = task_start t') /\
  (forall t, nth_error ts (List.length ts - 1) = Some t -> task_end t = 25) /\
  (forall b, 0 <= b < 25 ->
     exists i t, nth_error ts i = Some t /\ task_start t <= b < task_end t /\
       forall i' t', nth_error ts i' = Some t' ->
                     task_start t' <= b < task_end t' -> i' = i).
Proof.
  apply (byte_ranges_partition md3 25).
  split; [lia | split; [simpl; lia | reflexivity]].
Defined.

(** * Properties of the rest of the uploader *)

(** ** Stripping *)

Lemma lstrip_id (c : ascii) (s : string) : starts_with c s = false -> lstrip c s = s.
Proof. destruct s as [ | a s]; cbn; [reflexivity | now intros ->]. Qed.

Lemma lstrip_starts (c : ascii) (s : string) : starts_with c (lstrip c s) = false.
Proof.
  induction s as [ | a s IH]; cbn; [reflexivity | ].
  destruct (Ascii.eqb a c) eqn:Hac; [exact IH | cbn; exact Hac].
Qed.

Lemma rstrip_ends (c : ascii) (s : string) : ends_with c (rstrip c s) = false.
Proof.
  induction s as [ | a s IH]; cbn [rstrip]; [reflexivity | ].
  destruct (rstrip c s) as [ | b r] eqn:Hr.
  - destruct (Ascii.eqb a c) eqn:Hac; cbn; [reflexivity | exact Hac].
  - exact IH.
Qed.

Lemma rstrip_starts (c : ascii) (s : string) :
  starts_with c s = false -> starts_with c (rstrip c s) = false.
Proof.
  destruct s as [ | a s]; cbn [rstrip starts_with]; [reflexivity | ].
  intros Hac. destruct (rstrip c s); [ | exact Hac].
  rewrite Hac. exact Hac.
Qed.

Lemma rstrip_id (c : ascii) (s : string) : ends_with c s = false -> rstrip c s = s.
Proof.
  induction s as [ | a s IH]; [reflexivity | ].
  cbn [rstrip ends_with]. destruct s as [ | b s'].
  - intros ->. reflexivity.
  - intros He. now rewrite IH.
Qed.

Lemma rstrip_repeat (c : ascii) (k : nat) : rstrip c (repeat_char c k) = EmptyString.
Proof.
  induction k as [ | k IH]; [reflexivity | ].
  cbn [repeat_char rstrip]. now rewrite IH, Ascii.eqb_refl.
Qed.

(** Trailing [c]s do not matter to [rstrip]. *)
Lemma rstrip_app_repeat (c : ascii) (s : string) (k : nat) :
  rstrip c (s ++ repeat_char c k) = rstrip c s.
Proof.
  induction s as [ | a s IH]; [apply rstrip_repeat | ].
  cbn [append rstrip]. now rewrite IH.
Qed.

Lemma strip_clean (c : ascii) (s : string) :
  starts_with c (strip c s) = false /\ ends_with c (strip c s) = false.
Proof.
  unfold strip. split; [apply rstrip_starts, lstrip_starts | apply rstrip_ends].
Qed.

Lemma strip_quoted (c : ascii) (tag : string) :
  starts_with c tag = false -> ends_with c tag = false ->
  strip c (String c (tag ++ String c EmptyString)) = tag.
Proof.
  intros Hs He. unfold strip. cbn [lstrip]. rewrite Ascii.eqb_refl.
  change (String c EmptyString) with (repeat_char c 1).
  destruct tag as [ | a t].
  - cbn. now rewrite Ascii.eqb_refl.
  - rewrite lstrip_id by exact Hs.
    rewrite rstrip_app_repeat. now apply rstrip_id.
Qed.

(** ** One part, again *)

Section UploadPartMore.

Variables (part_url : string) (part_no start end_ : Z).
Variable storage : Z -> attempt_outcome.

Lemma loop_same_request (attempts : list Z) :
  Forall (same_request part_url start end_)
         (fst (retry_loop part_url part_no start end_ storage attempts)) /\
  (puts_issued (fst (retry_loop part_url part_no start end_ storage attempts))
   <= attempts_made (fst (retry_loop part_url part_no start end_ storage attempts))
   <= List.length attempts)%nat.
Proof.
  induction attempts as [ | a rest [IHall IHn]]; [cbn; split; [constructor | lia] | ].
  unfold puts_issued, attempts_made in *.
  destruct (transient (storage a)) eqn:Ht.
  - destruct (Z_lt_le_dec a (MAX_RETRIES - 1)) as [Hlt | Hge].
    + rewrite (loop_retry part_url part_no start end_ storage a rest Ht Hlt).
      cbn [fst app filter is_put is_read List.length]. split; [ | lia].
      repeat constructor; auto.
    + destruct (loop_give_up part_url part_no start end_ storage a rest Ht Hge)
        as (e & _ & _ & ->).
      cbn [fst app filter is_put is_read List.length]. split.
      * destruct e; repeat constructor; auto.
      * destruct e; cbn; lia.
  - rewrite (loop_stop part_url part_no start end_ storage a rest Ht). cbn [fst].
    destruct (attempt_cases part_url part_no start end_ (storage a))
      as [e Hn | r _ _ _ Hb | m _ _ _ Hb]; try congruence; rewrite Hb;
      cbn [fst filter is_put is_read List.length]; (split; [ | lia]);
      repeat constructor; auto.
Qed.

End UploadPartMore.

(** X1. Every attempt of a part reads the same byte range of the file,
    [end - start] bytes from offset [start], and sends it to the same URL; the
    progress update, if any, is of that size too; and no attempt sends more
    than one request. *)
Theorem retries_resend_same_range
    (part_url : string) (part_no start end_ : Z) (storage : Z -> attempt_outcome) :
  let tr := fst (_upload_part part_url part_no start end_ storage) in
  Forall (same_request part_url start end_) tr /\
  (puts_issued tr <= attempts_made tr)%nat.
Proof.
  cbn zeta. unfold _upload_part.
  destruct (loop_same_request part_url part_no start end_ storage (range MAX_RETRIES))
    as [Hall Hn].
  split; [exact Hall | lia].
Qed.

(** X2. The backoff of a call adds up to [2 ^ retries - 1] seconds, where
    [retries] is the number of attempts after the first; it never exceeds 15
    seconds. *)
Theorem backoff_total
    (part_url : string) (part_no start end_ : Z) (storage : Z -> attempt_outcome) :
  let tr := fst (_upload_part part_url part_no start end_ storage) in
  sum_Z (sleeps tr) = 2 ^ (Z.of_nat (attempts_made tr) - 1) - 1 /\
  sum_Z (sleeps tr) <= 15.
Proof.
  cbn zeta.
  destruct (call_has_shape part_url part_no start end_ storage)
    as (k & Hk & -> & -> & _).
  unfold MAX_RETRIES in Hk.
  destruct k as [ | [ | [ | [ | [ | k]]]]]; [ | | | | | lia];
    (split; [vm_compute; reflexivity | vm_compute; discriminate]).
Qed.

(** X3. The entity tag a call returns neither starts nor ends with a double
    quote, whatever the storage sent. *)
Theorem etag_has_no_surrounding_quotes
    (part_url : string) (part_no start end_ : Z) (storage : Z -> attempt_outcome)
    (pr : PartResult) :
  snd (_upload_part part_url part_no start end_ storage) = Some (Return pr) ->
  starts_with dquote (etag pr) = false /\ ends_with dquote (etag pr) = false.
Proof.
  intros Hres.
  destruct (call_has_shape part_url part_no start end_ storage)
    as (k & _ & _ & _ & _ & Hlast & _).
  rewrite Hres in Hlast. injection Hlast as Hlast.
  destruct (attempt_cases part_url part_no start end_ (storage (Z.of_nat k)))
    as [e _ _ _ Hb | r _ _ _ Hb | m _ _ _ Hb]; rewrite Hb in Hlast; cbn [snd] in Hlast;
    try discriminate.
  injection Hlast as ->. cbn [etag]. apply strip_clean.
Qed.

(** X4. An entity tag sent in double quotes is returned without them: when
    the attempt that ends the call is answered, outside the 4xx and 5xx codes,
    with the header [ETag: "tag"], the call returns [tag]. *)
Theorem quoted_etag_is_unquoted
    (part_url : string) (part_no start end_ : Z) (storage : Z -> attempt_outcome)
    (k : Z) (r : Response) (tag : string) :
  0 <= k < MAX_RETRIES ->
  (forall j, 0 <= j < k -> transient (storage j) = true) ->
  storage k = PutReturns r ->
  raise_for_status (status_code r) = None ->
  ETag r = Some (String dquote (tag ++ String dquote EmptyString)) ->
  starts_with dquote tag = false ->
  ends_with dquote tag = false ->
  snd (_upload_part part_url part_no start end_ storage)
  = Some (Return (mkPartResult part_no tag)).
Proof.
  intros Hk Hpre Hst Hok Htag Hs He.
  assert (Hshape : call_shape part_url part_no start end_ storage (Z.to_nat k)).
  { apply call_shape_at; rewrite ?Z2Nat.id by lia; try lia; auto.
    rewrite Hst. cbn. now rewrite Hok. }
  destruct Hshape as (_ & _ & _ & _ & -> & _).
  rewrite Z2Nat.id, Hst by lia. cbn [attempt_body]. rewrite Hok.
  unfold headers_get_ETag. rewrite Htag. cbn [snd].
  now rewrite strip_quoted.
Qed.

(** ** The second invariant *)

Lemma put_requests_app (l1 l2 : list (thread * event)) :
  put_requests (l1 ++ l2) = (put_requests l1 + put_requests l2)%nat.
Proof. unfold put_requests, puts_issued. now rewrite map_app, filter_app, length_app. Qed.

Lemma put_requests_tagged (t : thread) (evs : list event) :
  put_requests (tagged t evs) = puts_issued evs.
Proof.
  unfold put_requests, tagged. rewrite map_map. cbn [snd]. now rewrite map_id.
Qed.

Lemma puts_of_snoc (md : Metadata) (w : World) (l : list nat) (i : nat) :
  puts_of md w (l ++ [i]) = (puts_of md w l + puts_issued (task_trace md w i))%nat.
Proof. unfold puts_of. rewrite map_app, list_sum_app. cbn. lia. Qed.

Section Invariant2.

Variables (md : Metadata) (token : option string) (w : World).

Lemma init_inv2 : Inv2 md token w (init md w).
Proof. unfold Inv2, init. cbn. repeat split. repeat constructor. Qed.

Lemma step_inv2 (l : label) (s s' : state) :
  Inv md token w s -> Inv2 md token w s ->
  step md token w l s = Some s' -> Inv2 md token w s'.
Proof.
  intros Hinv [Hputs Hph2] Hstep.
  destruct l as [i | i | ]; cbn [step] in Hstep.
  - destruct (nth_error (tasks md w) i) as [t | ] eqn:Hnth; [ | discriminate].
    destruct (mem i (finished s)) eqn:Hmem; [discriminate | ].
    injection Hstep as <-.
    unfold Inv2. cbn [finished yielded parts log st_phase file_id].
    split.
    { rewrite put_requests_app, put_requests_tagged, puts_of_snoc, Hputs.
      now rewrite (task_trace_nth md w i t Hnth). }
    destruct (st_phase s) as [ | | ret] eqn:Hph.
    + destruct Hph2 as [Hid Hnc]. split; [exact Hid | ].
      apply Forall_app. split; [exact Hnc | ].
      pose proof (task_trace_no_close md w i) as Htr.
      rewrite (task_trace_nth md w i t Hnth) in Htr.
      unfold tagged. rewrite Forall_map. exact Htr.
    + exact Hph2.
    + exfalso. destruct Hinv as (_ & _ & _ & _ & _ & Hdone). rewrite Hph in Hdone.
      destruct Hdone as [Hall _]. apply mem_not_In in Hmem. apply Hmem, Hall.
      apply nth_error_Some. congruence.
  - destruct (st_phase s) eqn:Hph; try discriminate.
    destruct (nth_error (tasks md w) i) as [t | ] eqn:Hnth; [ | discriminate].
    destruct (mem i (finished s) && negb (mem i (yielded s))); [ | discriminate].
    destruct Hph2 as [Hid Hnc].
    destruct (snd (run_task w i t)) as [pr | e]; injection Hstep as <-;
      unfold Inv2; cbn [finished yielded parts log st_phase file_id].
    + now repeat split.
    + split; [ | exact Hid].
      rewrite put_requests_app, Hputs.
      destruct (post (abort_post w)); cbn; lia.
  - destruct (st_phase s) eqn:Hph; try discriminate.
    + destruct (List.length (yielded s) =? List.length (tasks md w))%nat; [ | discriminate].
      injection Hstep as <-. destruct Hph2 as [Hid Hnc].
      unfold finalize, complete_multipart_upload.
      destruct (post (complete_post w)) as [fid | e];
        unfold Inv2; cbn [finished yielded parts log st_phase file_id].
      * split; [ | split; [discriminate | right]].
        { rewrite put_requests_app, Hputs. cbn. lia. }
        eexists _, _. split; [reflexivity | split; [exact Hnc | ]].
        repeat constructor.
      * split; [ | split; [now intros _ | right]].
        { rewrite put_requests_app, Hputs. unfold on_upload_failure, abort_multipart_upload.
          destruct (post (abort_post w)); cbn; lia. }
        eexists _, _. split; [reflexivity | split; [exact Hnc | ]].
        unfold on_upload_failure, abort_multipart_upload.
        destruct (post (abort_post w)); repeat constructor.
    + destruct (all_finished md w s); [ | discriminate].
      injection Hstep as <-.
      unfold Inv2; cbn [finished yielded parts log st_phase file_id].
      split; [exact Hputs | split; [now intros _ | left]].
      destruct Hinv as (_ & _ & _ & _ & _ & Hdec). rewrite Hph in Hdec.
      destruct Hdec as (ys & j & pn & e & H). now exists ys, j, pn, e.
Qed.

Lemma run_inv2 (sched : list label) (s : state) :
  Inv md token w s -> Inv2 md token w s ->
  Inv2 md token w (run md token w sched s).
Proof.
  revert s. induction sched as [ | l sched IH]; intros s Hinv Hinv2; cbn [run];
    [exact Hinv2 | ].
  destruct (step md token w l s) as [s' | ] eqn:Hstep; [ | now apply IH].
  apply IH; [eapply step_inv | eapply step_inv2]; eassumption.
Qed.

Lemma upload_inv2 (sched : list label) :
  Inv2 md token w (_multipart_upload md token w sched).
Proof. apply run_inv2; [apply init_inv | apply init_inv2]. Qed.

End Invariant2.

(** ** Every way the multipart upload can end *)

(** A run that has returned has either handled a failed part, and then not
    every part succeeds, or gone on to the completion call, and then every
    part succeeds. *)
Lemma done_cases
    (md : Metadata) (token : option string) (w : World) (sched : list label) (ret : bool) :
  st_phase (_multipart_upload md token w sched) = Done ret ->
  (ret = false /\ decided md token w (_multipart_upload md token w sched) /\
   ~ all_parts_succeed md w) \/
  (finalized md token w (_multipart_upload md token w sched) ret /\
   all_parts_succeed md w).
Proof.
  intros Hdone.
  pose proof (upload_inv md token w sched) as (_ & _ & _ & _ & _ & Hph).
  rewrite Hdone in Hph. destruct Hph as [_ [[-> Hdec] | Hfin]].
  - left. split; [reflexivity | split; [exact Hdec | ]].
    intros Hall. eapply decided_not_all; eassumption.
  - right. split; [exact Hfin | ]. eapply finalized_all_succeed; eassumption.
Qed.

Lemma closed_last_no_update (l : list (thread * event)) :
  closed_last l -> no_update_after_close l.
Proof.
  intros (l1 & l2 & -> & Hnc & Hnu) l1' l2' t n Heq Hclose Hupd.
  rewrite Forall_forall in Hnc, Hnu.
  apply app_eq_app in Heq. destruct Heq as [m [[-> ->] | [-> ->]]].
  - specialize (Hnc (Main, EvClose) (in_or_app _ _ _ (or_introl Hclose))).
    discriminate.
  - specialize (Hnu (t, EvUpdate n) (in_or_app _ _ _ (or_intror Hupd))).
    discriminate.
Qed.

(** X5. When every part succeeds, no worker updates the progress bar after the
    main thread has closed it: in every run that returns, all updates come
    before the first close. *)
Theorem updates_before_close_on_success
    (md : Metadata) (token : option string) (w : World) (sched : list label) (ret : bool) :
  all_parts_succeed md w ->
  st_phase (_multipart_upload md token w sched) = Done ret ->
  no_update_after_close (log (_multipart_upload md token w sched)).
Proof.
  intros Hall Hdone.
  pose proof (upload_inv2 md token w sched) as [_ Hph]. rewrite Hdone in Hph.
  destruct Hph as [_ [Hdec | Hlast]].
  - exfalso. eapply decided_not_all; eassumption.
  - now apply closed_last_no_update.
Qed.

Lemma outcome_of_run
    (md : Metadata) (token : option string) (w : World) (sched : list label) (ret : bool) :
  st_phase (_multipart_upload md token w sched) = Done ret ->
  (ret = true <->
   all_parts_succeed md w /\ exists body, post (complete_post w) = Return body) /\
  file_id (_multipart_upload md token w sched)
  = (if ret
     then match post (complete_post w) with Return body => body | Raise _ => None end
     else None).
Proof.
  intros Hdone.
  pose proof (upload_inv2 md token w sched) as [_ Hph2]. rewrite Hdone in Hph2.
  destruct Hph2 as [Hid _].
  destruct (done_cases md token w sched ret Hdone) as [(-> & _ & Hnot) | [Hfin Hall]].
  - split; [ | now apply Hid]. split; [discriminate | now intros [Hall _]].
  - destruct Hfin as (ps & _ & _ & _ & _ & _ & Hret).
    destruct (post (complete_post w)) as [body | e].
    + destruct Hret as [-> ->]. split; [ | reflexivity]. split; eauto.
    + subst ret. split; [ | now apply Hid].
      split; [discriminate | now intros [_ [body Hbody]]].
Qed.

(** X6. The return value does not depend on the schedule: a run that returns
    returns [True] exactly when every part succeeds and the completion request
    succeeds.  Then [metadata['file_id']] is the ['file_id'] of the completion
    response; in every other case the function leaves it unset. *)
Theorem upload_outcome
    (md : Metadata) (token : option string) (w : World) (sched : list label) (ret : bool) :
  st_phase (_multipart_upload md token w sched) = Done ret ->
  (ret = true <->
   all_parts_succeed md w /\ exists body, post (complete_post w) = Return body) /\
  file_id (_multipart_upload md token w sched)
  = (if ret
     then match post (complete_post w) with Return body => body | Raise _ => None end
     else None).
Proof. apply outcome_of_run. Qed.

Lemma count_close_abort (o : post_outcome) (ct : string) (token : option string) :
  filter is_close (abort_multipart_upload o ct token) = [].
Proof. unfold abort_multipart_upload. now destruct (post o). Qed.

(** X7. The progress bar is closed when the function returns, on every path;
    only the main thread closes it, once, or twice when the completion request
    fails after every part succeeded. *)
Theorem progress_closed_on_return
    (md : Metadata) (token : option string) (w : World) (sched : list label) (ret : bool) :
  st_phase (_multipart_upload md token w sched) = Done ret ->
  let s := _multipart_upload md token w sched in
  ProgressTracker.closed (sink (log s)) = true /\
  (forall i e, In (Worker i, e) (log s) -> is_close e = false) /\
  (List.length (filter is_close (main_log (log s))) = 1%nat \/
   List.length (filter is_close (main_log (log s))) = 2%nat) /\
  (List.length (filter is_close (main_log (log s))) = 2%nat <->
   all_parts_succeed md w /\ exists e, post (complete_post w) = Raise e).
Proof.
  intros Hdone s. subst s.
  pose proof (upload_inv md token w sched) as Hinv.
  assert (Hworkers : forall i e,
             In (Worker i, e) (log (_multipart_upload md token w sched)) ->
             is_close e = false).
  { intros i e Hin. now destruct (worker_events md token w _ i e Hinv Hin). }
  assert (Hclosed : forall evs1 evs2,
             main_log (log (_multipart_upload md token w sched)) = evs1 ++ EvClose :: evs2 ->
             ProgressTracker.closed (sink (log (_multipart_upload md token w sched))) = true).
  { intros evs1 evs2 Hmain. apply sink_closed_after with Main, in_main_log.
    rewrite Hmain. apply in_or_app. right. now left. }
  destruct (done_cases md token w sched ret Hdone) as [(-> & Hdec & Hnot) | [Hfin Hall]].
  - destruct Hdec as (ys & i & pn & e & _ & _ & _ & Hmain).
    unfold on_part_failure in Hmain.
    split; [apply (Hclosed [starting md w; EvPrint (MsgPartFailed pn e)] _ Hmain) | ].
    split; [exact Hworkers | ].
    rewrite Hmain. cbn [filter is_close starting]. rewrite count_close_abort.
    split; [now left | ]. split; [discriminate | now intros [Hall _]].
  - destruct Hfin as (ps & _ & _ & _ & Hmain & _ & _).
    unfold after_collecting, on_upload_failure in Hmain.
    split; [apply (Hclosed [starting md w] _ Hmain) | ].
    split; [exact Hworkers | ].
    rewrite Hmain. cbn [filter is_close starting].
    destruct (post (complete_post w)) as [body | e]; cbn [filter is_close List.length].
    + split; [now left | ]. split; [discriminate | now intros [_ [e He]]].
    + rewrite count_close_abort. split; [now right | ]. split; eauto.
Qed.

Lemma task_puts_le (md : Metadata) (w : World) (i : nat) :
  (puts_issued (task_trace md w i) <= 5)%nat.
Proof.
  unfold task_trace. destruct (nth_error (tasks md w) i) as [t | ];
    [ | unfold puts_issued; cbn; lia].
  unfold run_task, _upload_part.
  destruct (loop_same_request (task_url t) (task_part_number t) (task_start t)
              (task_end t) (storage w i) (range MAX_RETRIES)) as [_ Hn].
  destruct (retry_loop _ _ _ _ _ _) as [tr r]. cbn [fst] in *.
  change (List.length (range MAX_RETRIES)) with 5%nat in Hn. lia.
Qed.

Lemma puts_of_le (md : Metadata) (w : World) (l : list nat) :
  (puts_of md w l <= 5 * List.length l)%nat.
Proof.
  unfold puts_of. induction l as [ | i l IH]; [cbn; lia | ].
  pose proof (task_puts_le md w i).
  cbn [map List.length]. unfold list_sum in *. cbn [fold_right]. lia.
Qed.

Lemma put_requests_le
    (md : Metadata) (token : option string) (w : World) (sched : list label) :
  (put_requests (log (_multipart_upload md token w sched))
   <= 5 * List.length (tasks md w))%nat.
Proof.
  pose proof (upload_inv2 md token w sched) as [-> _].
  pose proof (upload_inv md token w sched) as (Hnd & Hlt & _).
  pose proof (puts_of_le md w (finished (_multipart_upload md token w sched))) as Hle.
  assert (Hlen : (List.length (finished (_multipart_upload md token w sched))
                  <= List.length (seq 0 (List.length (tasks md w))))%nat).
  { apply NoDup_incl_length; [exact Hnd | ].
    intros i Hi. apply in_seq. specialize (Hlt i Hi). lia. }
  rewrite length_seq in Hlen. lia.
Qed.


(** ** The list handed to the completion collaborator *)

Lemma ascending_unique (l1 : list PartResult) : forall l2 : list PartResult,
  StronglySorted part_le l1 -> StronglySorted part_lt l2 -> Permutation l1 l2 ->
  l1 = l2.
Proof.
  induction l1 as [ | a l1 IH]; intros l2 Hle Hlt Hperm.
  - symmetry. now apply Permutation_nil.
  - destruct l2 as [ | b l2];
      [apply Permutation_sym, Permutation_nil in Hperm; discriminate | ].
    apply StronglySorted_inv in Hle. destruct Hle as [Hle Ha].
    apply StronglySorted_inv in Hlt. destruct Hlt as [Hlt Hb].
    rewrite Forall_forall in Ha, Hb.
    assert (Hab : a = b).
    { pose proof (Permutation_in a Hperm (or_introl eq_refl)) as Hin.
      destruct Hin as [Heq | Hin]; [now symmetry | ].
      specialize (Hb a Hin).
      pose proof (Permutation_in b (Permutation_sym Hperm) (or_introl eq_refl)) as Hin'.
      unfold part_lt, part_le in *.
      destruct Hin' as [Heq | Hin']; [subst; lia | ].
      specialize (Ha b Hin'). lia. }
    subst b. f_equal. apply IH; auto. now apply Permutation_cons_inv with a.
Qed.

Lemma numbered_is_strict (rs : list PartResult) : forall (k n : nat),
  map part_number rs = map Z.of_nat (seq k n) -> StronglySorted part_lt rs.
Proof.
  induction rs as [ | r rs IH]; intros k n Hnum; [constructor | ].
  destruct n as [ | n]; [discriminate | ].
  cbn [map seq] in Hnum. injection Hnum as Hr Hrs.
  constructor; [now apply IH with (S k) n | ].
  apply Forall_forall. intros x Hx.
  apply (in_map part_number) in Hx. rewrite Hrs in Hx.
  apply in_map_iff in Hx. destruct Hx as (j & Hj & Hin). apply in_seq in Hin.
  unfold part_lt. lia.
Qed.

(** What the completion collaborator is called with when every part
    succeeds. *)
Lemma completion_call
    (md : Metadata) (token : option string) (w : World) (sched : list label) (ret : bool) :
  all_parts_succeed md w ->
  st_phase (_multipart_upload md token w sched) = Done ret ->
  exists ps rs,
    complete_calls (log (_multipart_upload md token w sched)) = [sort_parts ps] /\
    Permutation ps rs /\
    Forall2 (succeeded md w) (seq 0 (List.length (tasks md w))) rs.
Proof.
  intros Hall Hdone.
  pose proof (complete_calls_main md token w _ (upload_inv md token w sched)) as Hco.
  destruct (done_cases md token w sched ret Hdone) as [(_ & _ & Hnot) | [Hfin _]];
    [contradiction | ].
  destruct Hfin as (ps & Hperm & Hps & _ & Hmain & _).
  destruct (Permutation_Forall2 Hperm Hps) as (rs & Hprs & Hrs).
  exists ps, rs. split; [ | now split].
  rewrite Hco, Hmain. unfold after_collecting, on_upload_failure.
  destruct (post (complete_post w)); [reflexivity | ].
  destruct (abort_once (abort_post w) (completion_token md) None) as [_ Hc].
  cbn [flat_map starting complete_of app]. now rewrite Hc.
Qed.

(** X9. For a well-formed descriptor whose parts all succeed, the completion
    collaborator is called with the results of parts 1, 2, ..., n in this
    order, the same list in every run, however the pool was scheduled. *)
Theorem completion_list_in_part_order
    (md : Metadata) (token : option string) (w : World) (sched : list label) (ret : bool) :
  well_formed md (file_size w) ->
  all_parts_succeed md w ->
  st_phase (_multipart_upload md token w sched) = Done ret ->
  exists rs,
    Forall2 (succeeded md w) (seq 0 (List.length (tasks md w))) rs /\
    complete_calls (log (_multipart_upload md token w sched)) = [rs].
Proof.
  intros Hwf Hall Hdone.
  destruct (completion_call md token w sched ret Hall Hdone) as (ps & rs & Hco & Hperm & Hrs).
  exists rs. split; [exact Hrs | ]. rewrite Hco. f_equal.
  apply ascending_unique.
  - apply sort_parts_ascending.
  - apply numbered_is_strict with 1%nat (Z.to_nat (ceil_div (file_size w) (chunk_size md))).
    rewrite (results_part_numbers md w rs Hrs). apply Hwf.
  - now rewrite sort_parts_perm.
Qed.

Lemma completion_list_in_part_order_witness :
  exists rs,
    Forall2 (succeeded md3 w_all_ok) (seq 0 (List.length (tasks md3 w_all_ok))) rs /\
    complete_calls (log (_multipart_upload md3 None w_all_ok sched_reverse)) = [rs].
Proof.
  apply (completion_list_in_part_order md3 None w_all_ok sched_reverse true).
  - split; [simpl; lia | split; [reflexivity | reflexivity]].
  - three_parts_succeed.
  - reflexivity.
Defined.

(** X10. A descriptor without part URLs sends no PUT request: every run that
    returns has called the completion collaborator once, with the empty list,
    and returns [True] exactly when that request succeeds. *)
Theorem upload_without_parts
    (md : Metadata) (token : option string) (w : World) (sched : list label) (ret : bool) :
  part_urls md = [] ->
  st_phase (_multipart_upload md token w sched) = Done ret ->
  let s := _multipart_upload md token w sched in
  put_requests (log s) = 0%nat /\
  complete_calls (log s) = [[]] /\
  (ret = true <-> exists body, post (complete_post w) = Return body).
Proof.
  intros Hempty Hdone s. subst s.
  assert (Hn : List.length (tasks md w) = 0%nat).
  { unfold tasks. now rewrite submitted_length, Hempty. }
  assert (Hall : all_parts_succeed md w) by (intros i Hi; lia).
  split; [ | split].
  - pose proof (put_requests_le md token w sched) as Hle. lia.
  - destruct (completion_call md token w sched ret Hall Hdone) as (ps & rs & -> & Hperm & Hrs).
    rewrite Hn in Hrs. inversion Hrs; subst.
    apply Permutation_sym, Permutation_nil in Hperm. now subst ps.
  - destruct (done_cases md token w sched ret Hdone) as [(_ & _ & Hnot) | [Hfin _]];
      [contradiction | ].
    destruct Hfin as (ps & _ & _ & _ & _ & _ & Hret).
    destruct (post (complete_post w)) as [body | e].
    + destruct Hret as [-> _]. split; eauto.
    + subst ret. split; [discriminate | now intros [body Hbody]].
Qed.

(** ** The single upload *)

Lemma succeeds_spec (o : attempt_outcome) :
  succeeds o = true <->
  exists r, o = PutReturns r /\ raise_for_status (status_code r) = None.
Proof.
  destruct o as [m | m | r]; cbn.
  - split; [discriminate | now intros (r & H & _)].
  - split; [discriminate | now intros (r & H & _)].
  - destruct (raise_for_status (status_code r)) eqn:Hst.
    + split; [discriminate | ]. intros (r' & [= <-] & H). congruence.
    + split; [eauto | reflexivity].
Qed.

Lemma single_outcome
    (put_answer : attempt_outcome) (complete_answer : post_outcome)
    (metadata : UploadMetadata) (token : option string) :
  let '(evs, fid, ret) := _single_upload put_answer complete_answer metadata token in
  (ret = true <-> single_ok put_answer complete_answer metadata) /\
  fid = (if ret
         then match post complete_answer with Return body => body | Raise _ => None end
         else None).
Proof.
  unfold _single_upload, single_try, single_ok, stored, complete_single_upload.
  destruct (m_url metadata) as [url | ];
    [ | split; [split; [discriminate | now intros [[url H] _]] | reflexivity]].
  destruct put_answer as [m | m | r]; cbn [succeeds];
    try (split; [split; [discriminate | now intros (_ & H & _)] | reflexivity]).
  destruct (raise_for_status (status_code r)) as [e | ];
    [split; [split; [discriminate | now intros (_ & H & _)] | reflexivity] | ].
  destruct (m_completion_token metadata) as [ct | ];
    [ | split; [split; [discriminate | now intros (_ & _ & [ct H] & _)] | reflexivity]].
  destruct (post complete_answer) as [body | e].
  - split; [ | reflexivity]. split; [ | reflexivity].
    intros _. repeat split; eauto.
  - split; [ | reflexivity]. split; [discriminate | now intros (_ & _ & _ & [body H])].
Qed.

(** X11. A single upload returns [True] exactly when the dictionary has the
    keys ['url'] and ['completion_token'], the PUT is answered outside the 4xx
    and 5xx codes and the completion request succeeds.  Then it stores the
    ['file_id'] of the completion response in the dictionary; otherwise it
    stores nothing and returns [False]: no exception leaves the function. *)
Theorem single_upload_outcome
    (put_answer : attempt_outcome) (complete_answer : post_outcome)
    (metadata : UploadMetadata) (token : option string) :
  let '(evs, fid, ret) := _single_upload put_answer complete_answer metadata token in
  (ret = true <-> single_ok put_answer complete_answer metadata) /\
  fid = (if ret
         then match post complete_answer with Return body => body | Raise _ => None end
         else None).
Proof. apply single_outcome. Qed.

(** X12. A single upload never retries: it sends at most one PUT, whatever
    goes wrong, and at most one completion request, and that one only after
    the PUT was stored.  Without the key ['url'] the file is not even opened.
    The progress bar is closed on every path: once, or twice when the upload
    fails after the PUT was stored. *)
Theorem single_upload_requests
    (put_answer : attempt_outcome) (complete_answer : post_outcome)
    (metadata : UploadMetadata) (token : option string) :
  let '(evs, fid, ret) := _single_upload put_answer complete_answer metadata token in
  (List.length (filter is_sput evs) <= 1)%nat /\
  (List.length (filter is_scomplete evs) <= 1)%nat /\
  (filter is_scomplete evs <> [] -> stored put_answer) /\
  (m_url metadata = None -> ~ In SOpen evs) /\
  (List.length (filter is_sclose evs)
   = if negb ret && succeeds put_answer && truthy_key (m_url metadata) then 2 else 1)%nat.
Proof.
  unfold _single_upload, single_try, stored, complete_single_upload.
  destruct (m_url metadata) as [url | ].
  2: { cbn. rewrite andb_false_r. repeat split; try lia; try congruence.
       intros _ [H | [H | [H | []]]]; discriminate. }
  destruct put_answer as [m | m | r]; cbn [succeeds];
    try (cbn; repeat split; try lia; congruence).
  destruct (raise_for_status (status_code r)) as [e | ] eqn:Hst.
  { destruct (raise_for_status_Some _ _ Hst) as [-> _].
    cbn. repeat split; try lia; congruence. }
  destruct (m_completion_token metadata) as [ct | ];
    [ | cbn; repeat split; try lia; congruence].
  destruct (post complete_answer) as [body | e];
    cbn; repeat split; try lia; congruence.
Qed.

(** ** URLs *)

Lemma string_app_assoc (s1 s2 s3 : string) :
  ((s1 ++ s2) ++ s3 = s1 ++ (s2 ++ s3))%string.
Proof. induction s1 as [ | a s1 IH]; cbn; [reflexivity | now rewrite IH]. Qed.

Lemma before_last_none (c : ascii) (s : string) :
  contains c s = false -> before_last c s = None.
Proof.
  induction s as [ | a s IH]; [reflexivity | ].
  cbn [contains before_last]. intros H. apply orb_false_iff in H. destruct H as [Ha Hs].
  now rewrite (IH Hs), Ha.
Qed.

Lemma before_last_app (c : ascii) (d seg : string) :
  contains c seg = false ->
  before_last c (d ++ String c seg) = Some d.
Proof.
  intros Hseg. induction d as [ | a d IH]; cbn [append before_last].
  - now rewrite (before_last_none c seg Hseg), Ascii.eqb_refl.
  - now rewrite IH.
Qed.

Lemma ends_with_app (c a : ascii) (s seg : string) :
  ends_with c (s ++ String a seg) = ends_with c (String a seg).
Proof.
  induction s as [ | b s IH]; [reflexivity | ].
  cbn [append]. rewrite <- IH. cbn [ends_with].
  destruct (s ++ String a seg)%string eqn:Heq; [ | reflexivity].
  destruct s; discriminate.
Qed.

Lemma ends_with_contains (c : ascii) (s : string) :
  contains c s = false -> ends_with c s = false.
Proof.
  induction s as [ | a s IH]; [reflexivity | ].
  cbn [contains ends_with]. intros H. apply orb_false_iff in H. destruct H as [Ha Hs].
  destruct s; [exact Ha | now apply IH].
Qed.

Lemma api_base_url_slashes (api_url : string) (k : nat) :
  api_base_url (api_url ++ repeat_char slash k) = api_base_url api_url.
Proof. apply rstrip_app_repeat. Qed.

Lemma main_domain_slashes (api_url : string) (k : nat) :
  main_domain (api_url ++ repeat_char slash k) = main_domain api_url.
Proof. unfold main_domain. now rewrite rstrip_app_repeat. Qed.

(** X13. The link printed as [File ID] is built on what precedes the last
    path segment of the API URL: for [--api-url d/seg], with any number of
    trailing slashes, it is [d/<file_id>/]. *)
Theorem file_link_drops_last_segment (d seg file_id : string) (a : ascii) (k : nat) :
  contains slash (String a seg) = false ->
  file_link (d ++ String slash (String a seg) ++ repeat_char slash k) file_id
  = (d ++ String slash file_id ++ String slash EmptyString)%string.
Proof.
  intros Hseg. unfold file_link, main_domain, rsplit1_head. f_equal.
  rewrite <- string_app_assoc, rstrip_app_repeat.
  rewrite rstrip_id.
  - now rewrite before_last_app.
  - rewrite (ends_with_app slash slash d (String a seg)).
    change (ends_with slash (String slash (String a seg)))
      with (ends_with slash (String a seg)).
    now apply ends_with_contains.
Qed.

(** ** [upload_file] and [main] *)

Lemma upload_file_cases
    (w : World) (single_put : attempt_outcome) (sched : list label)
    (metadata : UploadMetadata) (token : option string) :
  (m_upload_type metadata = Some "single"%string /\
   upload_file w single_put sched metadata token
   = let '(evs, fid, ret) := _single_upload single_put (complete_post w) metadata token in
     Some (map InSingle evs, fid, Returns ret)) \/
  (m_upload_type metadata = Some "multipart"%string /\
   upload_file w single_put sched metadata token
   = multipart_call w sched metadata token) \/
  (m_upload_type metadata <> Some "single"%string /\
   m_upload_type metadata <> Some "multipart"%string /\
   upload_file w single_put sched metadata token
   = Some ([], None, Raises (ValueError "Unknown upload type"))).
Proof.
  unfold upload_file. destruct (m_upload_type metadata) as [t | ].
  - destruct (String.eqb_spec t "single") as [-> | Hs]; [now left | ].
    destruct (String.eqb_spec t "multipart") as [-> | Hm]; [right; now left | ].
    right. right. repeat split; congruence.
  - right. right. repeat split; discriminate.
Qed.

(** The multipart call returns [True] exactly when the upload has all it
    needs. *)
Lemma multipart_call_ok
    (w : World) (sched : list label) (metadata : UploadMetadata) (token : option string)
    (evs : list upload_event) (fid : option string) (r : outcome bool) :
  multipart_call w sched metadata token = Some (evs, fid, r) ->
  (r = Returns true <-> multipart_ok w metadata) /\
  (forall e, r = Raises e ->
     evs = [] /\ multipart_keys metadata = Raises e /\ exists key, e = KeyError key).
Proof.
  unfold multipart_call, multipart_ok.
  destruct (multipart_keys metadata) as [md | e] eqn:Hkeys.
  - destruct (st_phase (_multipart_upload md token w sched)) as [ | | ret] eqn:Hdone;
      try discriminate.
    intros [= <- <- <-].
    destruct (outcome_of_run md token w sched ret Hdone) as [Hiff _].
    split; [ | discriminate]. split.
    + intros [= ->]. exists md. split; [reflexivity | now apply Hiff].
    + intros (md' & [= <-] & Hok). f_equal. now apply Hiff.
  - intros [= <- <- <-]. split.
    + split; [discriminate | now intros (md & H & _)].
    + intros e' [= <-]. split; [reflexivity | split; [reflexivity | ]].
      unfold multipart_keys in Hkeys.
      destruct (m_chunk_size metadata); [ | injection Hkeys as <-; eauto].
      destruct (m_part_urls metadata); [ | injection Hkeys as <-; eauto].
      destruct (m_completion_token metadata); [discriminate | ].
      injection Hkeys as <-; eauto.
Qed.

(** What [upload_file] returns, in terms of the world. *)
Lemma upload_file_ok
    (mw : MainWorld) (metadata : UploadMetadata) (token : option string)
    (evs : list upload_event) (fid : option string) (r : outcome bool) :
  upload_file (upload_world mw) (single_put mw) (pool_schedule mw) metadata token
  = Some (evs, fid, r) ->
  (r = Returns true <-> upload_ok mw metadata) /\
  (evs <> [] ->
   m_upload_type metadata = Some "single"%string \/
   m_upload_type metadata = Some "multipart"%string).
Proof.
  intros Hup. unfold upload_ok.
  destruct (upload_file_cases (upload_world mw) (single_put mw) (pool_schedule mw)
              metadata token) as [[Ht Heq] | [[Ht Heq] | (Hns & Hnm & Heq)]];
    rewrite Heq in Hup.
  - pose proof (single_outcome (single_put mw) (complete_post (upload_world mw))
                  metadata token) as Hsingle.
    destruct (_single_upload _ _ _ _) as [[evs' fid'] ret].
    injection Hup as <- <- <-. destruct Hsingle as [Hiff _].
    split; [ | now left]. split.
    + intros [= ->]. left. split; [exact Ht | now apply Hiff].
    + intros [[_ Hok] | [Ht' _]]; [f_equal; now apply Hiff | congruence].
  - destruct (multipart_call_ok _ _ _ _ _ _ _ Hup) as [Hiff _].
    split; [ | now right]. split.
    + intros Hr. right. split; [exact Ht | now apply Hiff].
    + intros [[Ht' _] | [_ Hok]]; [congruence | now apply Hiff].
  - injection Hup as <- <- <-. split; [ | congruence].
    split; [discriminate | intros [[Ht' _] | [Ht' _]]; congruence].
Qed.

Lemma initiated_returns (st : Z) (metadata metadata' : UploadMetadata) :
  initiated (InitiateReturns st metadata) metadata' <->
  raise_for_status st = None /\ metadata' = metadata.
Proof.
  unfold initiated. split.
  - intros (st' & [= -> ->] & Hok). now split.
  - intros [Hok ->]. now exists st.
Qed.

Lemma filter_none {A : Type} (p : A -> bool) (l : list A) :
  Forall (fun x => p x = false) l -> filter p l = [].
Proof. induction 1 as [ | x l Hx _ IH]; cbn; [reflexivity | now rewrite Hx]. Qed.

(** What [get_token] does, in terms of the command line and the token file. *)
Lemma get_token_spec (args : Args) (mw : MainWorld) :
  (forall token, snd (get_token (arg_token args) (token_file mw)) = Fine token ->
     token_loads args mw /\ token = effective_token args mw) /\
  (forall e, snd (get_token (arg_token args) (token_file mw)) = Crash e ->
     ~ token_loads args mw /\
     truthy (arg_token args) = false /\ token_file mw = AlienTokenFile e) /\
  Forall (fun e => is_initiate e = false /\ is_upload e = false /\
                   e <> MPrint SayAnonymous)
         (fst (get_token (arg_token args) (token_file mw))) /\
  (truthy (arg_token args) = true ->
   fst (get_token (arg_token args) (token_file mw)) = []).
Proof.
  unfold get_token, effective_token, token_loads.
  destruct (truthy (arg_token args)).
  - cbn. split; [ | split; [ | split]].
    + intros token [= <-]. split; [now left | reflexivity].
    + intros e H. discriminate.
    + constructor.
    + reflexivity.
  - destruct (token_file mw) as [ | | tok | e0]; cbn; (split; [ | split; [ | split]]);
      try (intros token [= <-]; split; [right; discriminate | reflexivity]);
      try (intros H; discriminate);
      try (intros e H; discriminate);
      try (repeat constructor; discriminate).
    intros e [= <-]. split; [ | now split].
    intros [H | H]; [discriminate | now apply (H e0)].
Qed.

Lemma uploads_only (uevs : list upload_event) :
  filter is_upload (map MUpload uevs) = map MUpload uevs /\
  filter is_initiate (map MUpload uevs) = [] /\
  (forall m, ~ In (MPrint m) (map MUpload uevs)) /\
  ~ In MReadTokenFile (map MUpload uevs).
Proof.
  induction uevs as [ | e uevs (IH1 & IH2 & IH3 & IH4)]; cbn; [now repeat split | ].
  rewrite IH1, IH2. repeat split; auto.
  - intros m [H | H]; [discriminate | now apply (IH3 m)].
  - intros [H | H]; [discriminate | contradiction].
Qed.

(** Push [filter] through the event list of [main]. *)
Ltac main_filters :=
  repeat first
    [ progress cbn [filter app is_initiate is_upload]
    | rewrite filter_app ].


(** How [main] ends once the file was found. *)
Lemma main_upload_exit (args : Args) (mw : MainWorld) (out : main_outcome)
    (evs : list main_event) :
  main_upload args mw = Some (out, evs) ->
  (exit_status out = 0 \/ exit_status out = 1) /\
  (exit_status out = 0 <->
   token_loads args mw /\
   exists metadata, initiated (initiate_post mw) metadata /\ upload_ok mw metadata).
Proof.
  unfold main_upload.
  destruct (get_token_spec args mw) as (Hfine & Hcrash & _ & _).
  destruct (get_token (arg_token args) (token_file mw)) as [tok_evs [token | e]];
    cbn [snd] in *.
  2: { intros [= <- <-]. destruct (Hcrash e eq_refl) as [Hno _]. cbn.
       split; [now right | ]. split; [discriminate | now intros [H _]]. }
  destruct (Hfine token eq_refl) as [Hloads _].
  unfold initiate_upload.
  destruct (initiate_post mw) as [m | st metadata].
  { intros [= <- <-]. cbn. split; [now right | ].
    split; [discriminate | ]. intros (_ & md & (st & H & _) & _). discriminate. }
  destruct (raise_for_status st) as [e | ] eqn:Hst.
  { intros [= <- <-]. cbn. split; [now right | ].
    split; [discriminate | ]. intros (_ & md & Hinit & _).
    apply initiated_returns in Hinit. destruct Hinit. congruence. }
  destruct (upload_file _ _ _ metadata token) as [[[uevs fid] r] | ] eqn:Hup;
    [ | discriminate].
  destruct (upload_file_ok mw metadata token uevs fid r Hup) as [Hiff _].
  assert (Hmeta : (exists md, initiated (InitiateReturns st metadata) md /\ upload_ok mw md)
                  <-> upload_ok mw metadata).
  { split.
    - intros (md & Hinit & Hok). apply initiated_returns in Hinit.
      destruct Hinit as [_ ->]. exact Hok.
    - intros Hok. exists metadata. split; [now apply initiated_returns | exact Hok]. }
  destruct r as [[ | ] | e]; intros [= <- <-]; cbn [exit_status].
  - split; [now left | ]. split; [ | reflexivity].
    intros _. split; [exact Hloads | ]. apply Hmeta, Hiff. reflexivity.
  - split; [now right | ]. split; [discriminate | ].
    intros (_ & Hok). apply Hmeta, Hiff in Hok. discriminate.
  - split; [now right | ]. split; [discriminate | ].
    intros (_ & Hok). apply Hmeta, Hiff in Hok. discriminate.
Qed.

(** X14. The process ends with exit status 0, 1 or 2.  The status is 2
    exactly when [parse_args] rejects the command line.  It is 0 exactly when
    [parse_args] printed the help for [-h], or when the command is given, the
    file exists, the token is loaded without an exception, the initiate
    request is answered with a dictionary, and the upload this dictionary asks
    for has all it needs: for ['single'], the keys, a stored PUT and a
    successful completion request; for ['multipart'], the keys, every part
    stored within its retries, and a successful completion request. *)
Theorem main_exit_code (parsed : parse_outcome) (mw : MainWorld) (out : main_outcome)
    (evs : list main_event) :
  main parsed mw = Some (out, evs) ->
  (exit_status out = 0 \/ exit_status out = 1 \/ exit_status out = 2) /\
  (exit_status out = 2 <-> parsed = ParseUsageError) /\
  (exit_status out = 0 <->
   parsed = ParseHelp \/
   exists args,
     parsed = Parsed args /\
     arg_command args = true /\ file_exists mw = true /\ token_loads args mw /\
     exists metadata, initiated (initiate_post mw) metadata /\ upload_ok mw metadata).
Proof.
  unfold main. destruct parsed as [ | | args].
  - intros [= <- <-]. cbn. split; [now left | ].
    split; [split; discriminate | ]. split; [now left | reflexivity].
  - intros [= <- <-]. cbn. split; [now right; right | ].
    split; [now split | ]. split; [discriminate | ].
    intros [H | (args & H & _)]; discriminate.
  - destruct (arg_command args) eqn:Hc; cbn [negb].
    2: { intros [= <- <-]. cbn. split; [right; now left | ].
         split; [split; discriminate | ]. split; [discriminate | ].
         intros [H | (args' & [= <-] & H & _)]; congruence. }
    destruct (file_exists mw) eqn:Hf; cbn [negb].
    2: { intros [= <- <-]. cbn. split; [right; now left | ].
         split; [split; discriminate | ]. split; [discriminate | ].
         intros [H | (args' & [= <-] & _ & H & _)]; congruence. }
    destruct (main_upload args mw) as [[o evs'] | ] eqn:Hup; [ | discriminate].
    intros [= <- <-].
    destruct (main_upload_exit args mw o evs' Hup) as [Hcode Hiff].
    split; [destruct Hcode as [H | H]; [now left | right; now left] | ].
    split; [split; [destruct Hcode as [H | H]; rewrite H | ]; discriminate | ].
    rewrite Hiff. split.
    + intros [Hl Hm]. right. exists args. now repeat split.
    + intros [H | (args' & [= <-] & _ & _ & Hl & Hm)]; [discriminate | now split].
Qed.

(** The traffic of [main] once the file was found. *)
Lemma main_upload_traffic (args : Args) (mw : MainWorld) (out : main_outcome)
    (evs : list main_event) :
  main_upload args mw = Some (out, evs) ->
  (List.length (filter is_initiate evs) <= 1)%nat /\
  (filter is_upload evs <> [] ->
   exists metadata,
     initiated (initiate_post mw) metadata /\
     (m_upload_type metadata = Some "single"%string \/
      m_upload_type metadata = Some "multipart"%string)).
Proof.
  unfold main_upload.
  destruct (get_token_spec args mw) as (_ & _ & Htok & _).
  destruct (get_token (arg_token args) (token_file mw)) as [tok_evs loaded].
  cbn [fst] in Htok.
  assert (Hti : filter is_initiate tok_evs = []).
  { apply filter_none. eapply Forall_impl; [ | exact Htok]. now intros e (H & _). }
  assert (Htu : filter is_upload tok_evs = []).
  { apply filter_none. eapply Forall_impl; [ | exact Htok]. now intros e (_ & H & _). }
  destruct loaded as [token | e].
  2: { intros [= <- <-]. rewrite Hti, Htu. cbn. split; [lia | congruence]. }
  unfold initiate_upload.
  destruct (initiate_post mw) as [m | st metadata].
  { intros [= <- <-]. destruct (truthy token); main_filters; rewrite Hti, Htu; cbn;
      (split; [lia | congruence]). }
  destruct (raise_for_status st) as [e | ] eqn:Hst.
  { intros [= <- <-]. destruct (truthy token); main_filters; rewrite Hti, Htu; cbn;
      (split; [lia | congruence]). }
  destruct (upload_file _ _ _ metadata token) as [[[uevs fid] r] | ] eqn:Hup;
    [ | discriminate].
  destruct (upload_file_ok mw metadata token uevs fid r Hup) as [_ Htype].
  destruct (uploads_only uevs) as (Hu1 & Hu2 & _).
  assert (Hmeta : map MUpload uevs <> [] ->
                  exists metadata0,
                    initiated (InitiateReturns st metadata) metadata0 /\
                    (m_upload_type metadata0 = Some "single"%string \/
                     m_upload_type metadata0 = Some "multipart"%string)).
  { intros Hne. exists metadata. split; [now apply initiated_returns | ].
    apply Htype. intros ->. now apply Hne. }
  destruct r as [[ | ] | e]; intros [= <- <-];
    destruct (truthy token), (truthy fid), (truthy (m_download_url metadata));
    main_filters; rewrite Hti, Htu, ?Hu1, ?Hu2; cbn; rewrite ?app_nil_r;
    (split; [lia | exact Hmeta]).
Qed.

(** X15. [main] talks to the storage only after the initiate request was
    answered with a dictionary whose upload type is ['single'] or
    ['multipart']; without the command or without the file it does nothing
    but print one message; and it sends at most one initiate request. *)
Theorem main_traffic (parsed : parse_outcome) (mw : MainWorld) (out : main_outcome)
    (evs : list main_event) :
  main parsed mw = Some (out, evs) ->
  (List.length (filter is_initiate evs) <= 1)%nat /\
  (filter is_upload evs <> [] ->
   exists metadata,
     initiated (initiate_post mw) metadata /\
     (m_upload_type metadata = Some "single"%string \/
      m_upload_type metadata = Some "multipart"%string)) /\
  (forall args, parsed = Parsed args ->
     arg_command args = false \/ file_exists mw = false -> exists m, evs = [MPrint m]) /\
  ((forall args, parsed <> Parsed args) -> exists m, evs = [MPrint m]).
Proof.
  unfold main. destruct parsed as [ | | args].
  - intros [= <- <-]. cbn. repeat split; [lia | congruence | eauto | eauto].
  - intros [= <- <-]. cbn. repeat split; [lia | congruence | eauto | eauto].
  - destruct (arg_command args) eqn:Hc; cbn [negb].
    2: { intros [= <- <-]. cbn. repeat split; [lia | congruence | eauto | eauto]. }
    destruct (file_exists mw) eqn:Hf; cbn [negb].
    2: { intros [= <- <-]. cbn. repeat split; [lia | congruence | eauto | eauto]. }
    destruct (main_upload args mw) as [[o evs'] | ] eqn:Hup; [ | discriminate].
    intros [= <- <-].
    destruct (main_upload_traffic args mw o evs' Hup) as [Hone Hsto].
    unfold file_info. cbn [filter app is_initiate is_upload].
    split; [exact Hone | ]. split; [exact Hsto | ]. split.
    + intros args' [= <-] [H | H]; congruence.
    + intros H. now destruct (H args).
Qed.

(** Once the file was found, [main] uses the API URL only without its
    trailing slashes. *)
Lemma main_upload_slashes (args : Args) (mw : MainWorld) (api_url : string) (k : nat) :
  main_upload (with_api_url args (api_url ++ repeat_char slash k)) mw
  = main_upload (with_api_url args api_url) mw.
Proof.
  unfold main_upload, initiate_upload, endpoint, file_link.
  cbn [with_api_url arg_api_url arg_command arg_token].
  now rewrite api_base_url_slashes, main_domain_slashes.
Qed.

(** X16. Trailing slashes of [--api-url] change neither how [main] ends nor
    anything it does apart from the line ['API Server: ...'], which prints the
    URL as it was given: the same requests are sent to the same URLs and all
    other lines are the same. *)
Theorem api_url_trailing_slashes (args : Args) (mw : MainWorld) (api_url : string) (k : nat) :
  option_map fst (main (Parsed (with_api_url args (api_url ++ repeat_char slash k))) mw)
  = option_map fst (main (Parsed (with_api_url args api_url)) mw) /\
  option_map (fun r => apart_from_api_server_line (snd r))
             (main (Parsed (with_api_url args (api_url ++ repeat_char slash k))) mw)
  = option_map (fun r => apart_from_api_server_line (snd r))
               (main (Parsed (with_api_url args api_url)) mw) /\
  (arg_command args = true -> file_exists mw = true ->
   forall out evs,
     main (Parsed (with_api_url args (api_url ++ repeat_char slash k))) mw
     = Some (out, evs) ->
     In (MPrint (SayApiServer (api_url ++ repeat_char slash k))) evs).
Proof.
  unfold main. rewrite main_upload_slashes.
  cbn [with_api_url arg_command arg_file].
  destruct (arg_command args); cbn [negb]; [ | repeat split; discriminate].
  destruct (file_exists mw); cbn [negb]; [ | repeat split; discriminate].
  destruct (main_upload (with_api_url args api_url) mw) as [[o evs'] | ];
    [ | repeat split; discriminate].
  repeat split. intros _ _ out evs [= <- <-].
  unfold file_info. cbn. auto.
Qed.



(** A token file that holds a JSON list ends the run with a traceback and
    exit status 1, after the four lines about the file and before any
    request. *)
Example main_token_file_not_an_object :
  main (Parsed args_ex) mw_list_token_file
  = Some (MainRaises (AttributeError "'list' object has no attribute 'get'"),
          file_info args_ex mw_list_token_file ++ [MReadTokenFile]) /\
  option_map (fun r => exit_status (fst r)) (main (Parsed args_ex) mw_list_token_file)
  = Some 1.
Proof. split; reflexivity. Qed.

(** [-h] ends the run with exit status 0 and a usage error with 2, whatever
    the world. *)
Example main_argparse_exits (mw : MainWorld) :
  option_map (fun r => exit_status (fst r)) (main ParseHelp mw) = Some 0 /\
  option_map (fun r => exit_status (fst r)) (main ParseUsageError mw) = Some 2.
Proof. split; reflexivity. Qed.

(** ** The theorems at concrete inputs *)

Lemma etag_has_no_surrounding_quotes_witness :
  starts_with dquote (etag (mkPartResult 1 "abc")) = false /\
  ends_with dquote (etag (mkPartResult 1 "abc")) = false.
Proof.
  apply (etag_has_no_surrounding_quotes "u" 1 0 10 quoted_storage (mkPartResult 1 "abc")).
  reflexivity.
Defined.

Lemma quoted_etag_is_unquoted_witness :
  snd (_upload_part "u" 1 0 10 quoted_storage) = Some (Return (mkPartResult 1 "abc")).
Proof.
  apply (quoted_etag_is_unquoted "u" 1 0 10 quoted_storage 0
           (mkResponse 200 (Some (String dquote ("abc" ++ String dquote EmptyString))))
           "abc").
  - unfold MAX_RETRIES. lia.
  - intros j Hj. lia.
  - reflexivity.
  - reflexivity.
  - reflexivity.
  - reflexivity.
  - reflexivity.
Defined.

Lemma updates_before_close_on_success_witness :
  no_update_after_close (log (_multipart_upload md3 None w_all_ok sched_reverse)).
Proof.
  apply (updates_before_close_on_success md3 None w_all_ok sched_reverse true).
  - three_parts_succeed.
  - reflexivity.
Defined.

Lemma upload_outcome_witness :
  (false = true <->
   all_parts_succeed md3 w_part2_fails /\
   exists body, post (complete_post w_part2_fails) = Return body) /\
  file_id (_multipart_upload md3 None w_part2_fails sched_fail_first)
  = (if false
     then match post (complete_post w_part2_fails) with
          | Return body => body
          | Raise _ => None
          end
     else None).
Proof.
  apply (upload_outcome md3 None w_part2_fails sched_fail_first false).
  reflexivity.
Defined.

Lemma progress_closed_on_return_witness :
  let s := _multipart_upload md3 None w_complete_fails sched_reverse in
  ProgressTracker.closed (sink (log s)) = true /\
  (forall i e, In (Worker i, e) (log s) -> is_close e = false) /\
  (List.length (filter is_close (main_log (log s))) = 1%nat \/
   List.length (filter is_close (main_log (log s))) = 2%nat) /\
  (List.length (filter is_close (main_log (log s))) = 2%nat <->
   all_parts_succeed md3 w_complete_fails /\
   exists e, post (complete_post w_complete_fails) = Raise e).
Proof.
  apply (progress_closed_on_return md3 None w_complete_fails sched_reverse false).
  reflexivity.
Defined.

Lemma upload_without_parts_witness :
  let s := _multipart_upload md_empty None w_all_ok [Exit] in
  put_requests (log s) = 0%nat /\
  complete_calls (log s) = [[]] /\
  (true = true <-> exists body, post (complete_post w_all_ok) = Return body).
Proof.
  apply (upload_without_parts md_empty None w_all_ok [Exit] true).
  - reflexivity.
  - reflexivity.
Defined.

Lemma single_upload_requests_witness :
  let '(evs, fid, ret) :=
    _single_upload (ok_with_tag "a") (PostReturns 500 None) metadata_single None in
  (List.length (filter is_sput evs) <= 1)%nat /\
  (List.length (filter is_scomplete evs) <= 1)%nat /\
  (filter is_scomplete evs <> [] -> stored (ok_with_tag "a")) /\
  (m_url metadata_single = None -> ~ In SOpen evs) /\
  (List.length (filter is_sclose evs)
   = if negb ret && succeeds (ok_with_tag "a") && truthy_key (m_url metadata_single)
     then 2 else 1)%nat.
Proof.
  exact (single_upload_requests (ok_with_tag "a") (PostReturns 500 None)
           metadata_single None).
Defined.

Lemma file_link_drops_last_segment_witness :
  file_link ("https://zerofs.link" ++ String slash "api" ++ repeat_char slash 1) "f1"
  = ("https://zerofs.link" ++ String slash "f1" ++ String slash EmptyString)%string.
Proof.
  apply (file_link_drops_last_segment "https://zerofs.link" "pi" "f1" "a"%char 1).
  reflexivity.
Defined.

Lemma main_exit_code_witness :
  (exit_status (MainReturns 0) = 0 \/ exit_status (MainReturns 0) = 1 \/
   exit_status (MainReturns 0) = 2) /\
  (exit_status (MainReturns 0) = 2 <-> Parsed args_ex = ParseUsageError) /\
  (exit_status (MainReturns 0) = 0 <->
   Parsed args_ex = ParseHelp \/
   exists args,
     Parsed args_ex = Parsed args /\
     arg_command args = true /\ file_exists mw_ex = true /\ token_loads args mw_ex /\
     exists metadata, initiated (initiate_post mw_ex) metadata /\ upload_ok mw_ex metadata).
Proof.
  apply (main_exit_code (Parsed args_ex) mw_ex (MainReturns 0) evs_ex).
  vm_compute. reflexivity.
Defined.

Lemma main_traffic_witness :
  (List.length (filter is_initiate evs_ex) <= 1)%nat /\
  (filter is_upload evs_ex <> [] ->
   exists metadata,
     initiated (initiate_post mw_ex) metadata /\
     (m_upload_type metadata = Some "single"%string \/
      m_upload_type metadata = Some "multipart"%string)) /\
  (forall args, Parsed args_ex = Parsed args ->
     arg_command args = false \/ file_exists mw_ex = false ->
     exists m, evs_ex = [MPrint m]) /\
  ((forall args, Parsed args_ex <> Parsed args) -> exists m, evs_ex = [MPrint m]).
Proof.
  apply (main_traffic (Parsed args_ex) mw_ex (MainReturns 0) evs_ex).
  vm_compute. reflexivity.
Defined.

Lemma api_url_trailing_slashes_witness :
  option_map fst
    (main (Parsed (with_api_url args_ex ("https://zerofs.link/api" ++ repeat_char slash 2)))
          mw_ex)
  = option_map fst (main (Parsed (with_api_url args_ex "https://zerofs.link/api")) mw_ex) /\
  option_map (fun r => apart_from_api_server_line (snd r))
    (main (Parsed (with_api_url args_ex ("https://zerofs.link/api" ++ repeat_char slash 2)))
          mw_ex)
  = option_map (fun r => apart_from_api_server_line (snd r))
      (main (Parsed (with_api_url args_ex "https://zerofs.link/api")) mw_ex) /\
  (arg_command args_ex = true -> file_exists mw_ex = true ->
   forall out evs,
     main (Parsed (with_api_url args_ex ("https://zerofs.link/api" ++ repeat_char slash 2)))
          mw_ex
     = Some (out, evs) ->
     In (MPrint (SayApiServer ("https://zerofs.link/api" ++ repeat_char slash 2))) evs).
Proof.
  exact (api_url_trailing_slashes args_ex mw_ex "https://zerofs.link/api" 2).
Defined.

